(** * pool/partials.py: the windowed partials cache of the pool

    A shallow embedding of [PartialsInterval], [PartialsCache] and
    [Partials] and the properties of their running totals.

    Conventions of the embedding.
    - Python integers are unbounded: timestamps, difficulties and totals
      are [Z].
    - [int(time.time())] is an input: every call to
      [PartialsInterval.add] receives the clock value it reads.
    - A Python [dict] iterates in insertion order and [items()] is used to
      build a list, so a dictionary is an association list: a key that is
      assigned again keeps its place, a new key goes to the end.
    - The coroutines are run one at a time; the lock has no content in a
      sequential run and is not represented.
    - The durable store is the list of the calls made to it, in order. *)

From Stdlib Require Import ZArith List Bool Lia Sorted.
From Stdlib Require Import Strings.String Strings.Ascii Strings.Byte.
Import ListNotations.
Local Open Scope Z_scope.

(** ** Events and sums of difficulties *)

(** A partial as it is stored: [(timestamp, difficulty)]. *)
Definition partial : Type := (Z * Z)%type.

(** [sum(map(lambda x: x[1], l))] *)
Fixpoint sum_difficulty (l : list partial) : Z :=
  match l with
  | [] => 0
  | (_, difficulty) :: rest => difficulty + sum_difficulty rest
  end.

(** [lambda x: x[0] >= cutoff] *)
Definition not_before (cutoff : Z) (x : partial) : bool := cutoff <=? fst x.

(** [sum(map(lambda x: x[1], filter(lambda x: x[0] >= cutoff, l)))], the sum
    that [PartialsCache.add] takes over a narrower window. *)
Definition points_since (cutoff : Z) (l : list partial) : Z :=
  sum_difficulty (filter (not_before cutoff) l).

(** Timestamps in chronological (non-decreasing) order. *)
Definition nondecreasing (l : list Z) : Prop := StronglySorted Z.le l.

Definition chronological (l : list partial) : Prop :=
  nondecreasing (map fst l).

(** ** Dictionaries with string keys, in insertion order *)

Module Dict.
Section Dict.
Context {V : Type}.

Definition t := list (string * V).

(** [d.get(k)] *)
Fixpoint get (k : string) (d : t) : option V :=
  match d with
  | [] => None
  | (k', v) :: rest => if String.eqb k k' then Some v else get k rest
  end.

(** [k in d] *)
Definition contains (k : string) (d : t) : bool :=
  match get k d with Some _ => true | None => false end.

(** [d[k] = v] *)
Fixpoint set (k : string) (v : V) (d : t) : t :=
  match d with
  | [] => [(k, v)]
  | (k', v') :: rest =>
      if String.eqb k k' then (k', v) :: rest else (k', v') :: set k v rest
  end.

(** [sum(f(v) for v in d.values())] *)
Fixpoint sum (f : V -> Z) (d : t) : Z :=
  match d with
  | [] => 0
  | (_, v) :: rest => f v + sum f rest
  end.
End Dict.
Arguments t : clear implicits.
End Dict.

(** ** PartialsInterval *)

Module PartialsInterval.

(** [additions] is the [itertools.count()] iterator, represented by the
    value its next [next()] returns. *)
Record t : Type := mk {
  partials : list partial;
  points : Z;
  additions : Z;
  keep_interval : Z
}.

(** [__init__] *)
Definition init (keep_interval : Z) : t := mk [] 0 0 keep_interval.

(** The [while self.partials:] loop of [add]: drops expired partials from
    the front and stops at the first one that is not expired. *)
Fixpoint evict (drop_time : Z) (partials : list partial) (points : Z)
  : list partial * Z :=
  match partials with
  | [] => ([], points)
  | (timestamp, difficulty) :: rest =>
      if timestamp <? drop_time
      then evict drop_time rest (points - difficulty)
      else (partials, points)
  end.

(** [add(timestamp, difficulty, remove)], with [now] the value of
    [int(time.time())]; returns the new state and [next(self.additions)]. *)
Definition add (now timestamp difficulty : Z) (remove : bool) (s : t)
  : t * Z :=
  let partials1 := partials s ++ [(timestamp, difficulty)] in
  let points1 := points s + difficulty in
  let '(partials2, points2) :=
    if remove
    then evict (now - keep_interval s) partials1 points1
    else (partials1, points1) in
  (mk partials2 points2 (additions s + 1) (keep_interval s), additions s).

(** One call of [add] with the clock value it reads. *)
Record call : Type := mk_call {
  c_now : Z;
  c_timestamp : Z;
  c_difficulty : Z;
  c_remove : bool
}.

(** The partial that a call appends. *)
Definition event_of (c : call) : partial := (c_timestamp c, c_difficulty c).

Definition do_call (c : call) (s : t) : t * Z :=
  add (c_now c) (c_timestamp c) (c_difficulty c) (c_remove c) s.

(** The state after a sequence of calls. *)
Fixpoint run (calls : list call) (s : t) : t :=
  match calls with
  | [] => s
  | c :: rest => run rest (fst (do_call c s))
  end.

(** The values the calls return, in order. *)
Fixpoint returns (calls : list call) (s : t) : list Z :=
  match calls with
  | [] => []
  | c :: rest => snd (do_call c s) :: returns rest (fst (do_call c s))
  end.

(** [points] is the sum of the difficulties held. *)
Definition consistent (s : t) : Prop :=
  points s = sum_difficulty (partials s).

End PartialsInterval.

(** ** The durable store, exceptions, and library values *)

(** Modelled from the spec: the durable store ([AbstractPoolStore] of
    pool/store/abstract.py, whose source is not at hand) is a collaborator
    that is called once per ingested partial and once per update of the
    derived metrics.  It is represented by the calls made to it, which are
    taken to return normally.  The share is the pair of operands of
    [Decimal(points) / Decimal(self.all.points)]; the rounding of the
    quotient to the precision of the decimal context is not represented. *)
Inductive store_call : Type :=
  | add_partial_call
      (launcher_id : list byte) (timestamp difficulty : Z)
      (error : option string)
  | update_estimated_size_and_pplns_call
      (launcher_id : string) (estimated_size points : Z)
      (share_pplns : Z * Z).

(** The exceptions the modelled code can raise. *)
Inductive exn : Type :=
  | FloatError         (* ZeroDivisionError or OverflowError of the float estimate *)
  | DivisionByZero     (* decimal.DivisionByZero: x / 0 with x <> 0 *)
  | InvalidOperation   (* decimal.InvalidOperation: 0 / 0 *)
  | ValueError.        (* uint64(v) with v out of range *)

(** [Decimal(a) / Decimal(b)] in the default context, which traps both
    [DivisionByZero] and [InvalidOperation]. *)
Definition decimal_div (a b : Z) : (Z * Z) + exn :=
  if b =? 0
  then inr (if a =? 0 then InvalidOperation else DivisionByZero)
  else inl (a, b).

(** [uint64(v)] of chia.util.ints: the value itself when it fits in 64
    bits, [ValueError] otherwise. *)
Definition uint64 (v : Z) : option Z :=
  if (0 <=? v) && (v <? 2 ^ 64) then Some v else None.

(** [bytes.hex()]: two lowercase hexadecimal digits per byte. *)
Definition hex_digit (n : N) : ascii :=
  nth (N.to_nat n) (list_ascii_of_string "0123456789abcdef") "0"%char.

Fixpoint hex (b : list byte) : string :=
  match b with
  | [] => EmptyString
  | x :: rest =>
      let n := Byte.to_N x in
      String (hex_digit (N.div n 16)) (String (hex_digit (N.modulo n 16)) (hex rest))
  end.

(** [l[start:]] for a Python list. *)
Definition slice_from {A : Type} (start : Z) (l : list A) : list A :=
  let len := Z.of_nat (List.length l) in
  let i := if start <? 0 then Z.max 0 (start + len) else Z.min start len in
  skipn (Z.to_nat i) l.

(** ** PartialsCache *)

Module PartialsCache.

(** The dictionary itself ([items]), the interval of all launchers, and
    the two configuration values that [add] reads:
    [pool_config['time_target']] and
    [config['full_node']['selected_network']]. *)
Record t : Type := mk {
  items : Dict.t PartialsInterval.t;
  all : PartialsInterval.t;
  keep_interval : Z;
  time_target : Z;
  selected_network : string
}.

(** [__init__] with an empty dictionary. *)
Definition init (keep_interval time_target : Z) (selected_network : string)
  : t :=
  mk [] (PartialsInterval.init keep_interval) keep_interval time_target
     selected_network.

(** [self[launcher_id] = pi] *)
Definition setitem (launcher_id : string) (pi : PartialsInterval.t) (c : t)
  : t :=
  mk (Dict.set launcher_id pi (items c)) (all c) (keep_interval c)
     (time_target c) (selected_network c).

(** [self[launcher_id]], which goes through [__missing__] for an absent
    key: the fresh interval is stored and returned. *)
Definition getitem (launcher_id : string) (c : t)
  : t * PartialsInterval.t :=
  match Dict.get launcher_id (items c) with
  | Some pi => (c, pi)
  | None =>
      let pi := PartialsInterval.init (keep_interval c) in
      (setitem launcher_id pi c, pi)
  end.

(** What the part of [add] after the lock did. *)
Inductive outcome : Type :=
  | NotDue
  | Updated (call : store_call)
  | Raised (e : exn).

(** The body of [async with self._lock:] in [add]; [now_own] and
    [now_all] are the clock values read by the two calls.  The interval of
    the launcher is updated in place, so the dictionary holds its new
    state. *)
Definition locked_adds
    (launcher_id : string) (timestamp difficulty now_own now_all : Z)
    (c : t) : t * Z :=
  let '(c1, pi) := getitem launcher_id c in
  let '(pi', additions) :=
    PartialsInterval.add now_own timestamp difficulty true pi in
  let c2 := setitem launcher_id pi' c1 in
  let all' :=
    fst (PartialsInterval.add now_all timestamp difficulty true (all c2)) in
  (mk (items c2) all' (keep_interval c2) (time_target c2)
      (selected_network c2),
   additions).

Section Estimate.

(** [int(points / (time_target * 1.088e-15))], divided again by
    14680000 on testnet7: binary64 arithmetic, taken as a parameter.
    It yields [None] where the float computation raises. *)
Variable estimated_size_of : Z -> Z -> string -> option Z.

(** The body of [if additions % 5 == 0:] in [add], given the interval
    [own] that [self[launcher_id]] denotes and [all], the interval of all
    launchers: the points over the time target, the estimated size, the
    share, and the call to the store. *)
Definition estimate_outcome
    (launcher_id : string) (timestamp time_target : Z) (network : string)
    (own all : PartialsInterval.t) : outcome :=
  let points :=
    if PartialsInterval.keep_interval own =? time_target
    then PartialsInterval.points own
    else points_since (timestamp - time_target)
                      (PartialsInterval.partials own) in
  match estimated_size_of points time_target network with
  | None => Raised FloatError
  | Some estimated_size =>
      match decimal_div points (PartialsInterval.points all) with
      | inr e => Raised e
      | inl share_pplns =>
          Updated (update_estimated_size_and_pplns_call
                     launcher_id estimated_size points share_pplns)
      end
  end.

(** The same body on the cache: [self[launcher_id]] is read through
    [getitem]. *)
Definition update_estimate (launcher_id : string) (timestamp : Z) (c : t)
  : t * outcome :=
  let '(c1, pi) := getitem launcher_id c in
  (c1, estimate_outcome launcher_id timestamp (time_target c1)
         (selected_network c1) pi (all c1)).

(** [add(launcher_id, timestamp, difficulty)] *)
Definition add
    (launcher_id : string) (timestamp difficulty now_own now_all : Z)
    (c : t) : t * outcome :=
  let c0 :=
    if Dict.contains launcher_id (items c) then c
    else setitem launcher_id (PartialsInterval.init (keep_interval c)) c in
  let '(c1, additions) :=
    locked_adds launcher_id timestamp difficulty now_own now_all c0 in
  if additions mod 5 =? 0
  then update_estimate launcher_id timestamp c1
  else (c1, NotDue).

(** One call of [add] with the two clock values read under the lock. *)
Record call : Type := mk_call {
  c_launcher_id : string;
  c_timestamp : Z;
  c_difficulty : Z;
  c_now_own : Z;
  c_now_all : Z
}.

Definition do_call (o : call) (c : t) : t * outcome :=
  add (c_launcher_id o) (c_timestamp o) (c_difficulty o)
      (c_now_own o) (c_now_all o) c.

(** The cache after a sequence of calls; a call that raises has
    already changed the cache, and the next one runs on that state. *)
Fixpoint run (calls : list call) (c : t) : t :=
  match calls with
  | [] => c
  | o :: rest => run rest (fst (do_call o c))
  end.

(** What each call of the sequence did after the lock. *)
Fixpoint outcomes (calls : list call) (c : t) : list outcome :=
  match calls with
  | [] => []
  | o :: rest => snd (do_call o c) :: outcomes rest (fst (do_call o c))
  end.

End Estimate.

(** The clock values a sequence of calls reads, in order. *)
Definition clock_reads (calls : list call) : list Z :=
  flat_map (fun o => [c_now_own o; c_now_all o]) calls.

(** The number of calls of the sequence made for [launcher_id]. *)
Definition calls_for (launcher_id : string) (calls : list call) : Z :=
  Z.of_nat
    (List.length
       (filter (fun o => String.eqb launcher_id (c_launcher_id o)) calls)).

(** The interval that [self[launcher_id]] denotes: the stored one, or a
    new one for an absent key. *)
Definition current (launcher_id : string) (c : t) : PartialsInterval.t :=
  match Dict.get launcher_id (items c) with
  | Some pi => pi
  | None => PartialsInterval.init (keep_interval c)
  end.

(** The sum of [points] over the intervals of the dictionary. *)
Definition sum_points (d : Dict.t PartialsInterval.t) : Z :=
  Dict.sum PartialsInterval.points d.

(** The same sum restricted to the partials not older than [cutoff]. *)
Definition sum_points_since (cutoff : Z) (d : Dict.t PartialsInterval.t) : Z :=
  Dict.sum (fun pi => points_since cutoff (PartialsInterval.partials pi)) d.

(** An interval whose total is the sum of its list, which keeps [keep]
    seconds, and whose list is chronological and not later than [latest]. *)
Definition in_order (keep latest : Z) (pi : PartialsInterval.t) : Prop :=
  PartialsInterval.consistent pi
  /\ PartialsInterval.keep_interval pi = keep
  /\ chronological (PartialsInterval.partials pi)
  /\ Forall (fun x => fst x <= latest) (PartialsInterval.partials pi).

(** The relation between the interval of all launchers and the intervals
    of the dictionary that [add] maintains when timestamps and clock values
    do not decrease: nothing in [all] is older than [cutoff], and from
    [cutoff] on, [all] and the dictionary hold the same difficulties. *)
Definition windowed (keep cutoff latest : Z) (c : t) : Prop :=
  keep_interval c = keep
  /\ in_order keep latest (all c)
  /\ Forall (fun kv => in_order keep latest (snd kv)) (items c)
  /\ Forall (fun x => cutoff <= fst x) (PartialsInterval.partials (all c))
  /\ (forall since, cutoff <= since ->
         points_since since (PartialsInterval.partials (all c))
         = sum_points_since since (items c)).

End PartialsCache.

(** ** Partials *)

Module Partials.

(** The store (the calls made so far), the cache and the interval. *)
Record t : Type := mk {
  store : list store_call;
  cache : PartialsCache.t;
  keep_interval : Z
}.

(** [__init__]; [pplns_interval] is [None] when the pool configuration
    has no such key, and a day is kept. *)
Definition init
    (pplns_interval : option Z) (time_target : Z) (selected_network : string)
  : t :=
  let keep_interval :=
    match pplns_interval with Some k => k | None => 86400 end in
  mk [] (PartialsCache.init keep_interval time_target selected_network)
     keep_interval.

Definition with_cache (c : PartialsCache.t) (p : t) : t :=
  mk (store p) c (keep_interval p).

(** The loop of [load_from_store] over the rows
    [(launcher_id, timestamp, difficulty)] that the store returned.  With
    [remove=False] the clock is not read; [now] is passed along unused. *)
Fixpoint replay (now : Z) (rows : list (string * Z * Z)) (c : PartialsCache.t)
  : PartialsCache.t :=
  match rows with
  | [] => c
  | (lid, t, d) :: rest =>
      let '(c1, pi) := PartialsCache.getitem lid c in
      let c2 :=
        PartialsCache.setitem lid
          (fst (PartialsInterval.add now t d false pi)) c1 in
      let all' :=
        fst (PartialsInterval.add now t d false (PartialsCache.all c2)) in
      replay now rest
        (PartialsCache.mk (PartialsCache.items c2) all'
           (PartialsCache.keep_interval c2) (PartialsCache.time_target c2)
           (PartialsCache.selected_network c2))
  end.

Definition load_from_store
    (now : Z) (rows : list (string * Z * Z)) (p : t) : t :=
  with_cache (replay now rows (cache p)) p.

Section Estimate.

Variable estimated_size_of : Z -> Z -> string -> option Z.

(** [add_partial(launcher_id, timestamp, difficulty, error)]; the
    second component is the exception raised, if any. *)
Definition add_partial
    (launcher_id : list byte) (timestamp difficulty : Z)
    (error : option string) (now_own now_all : Z) (p : t)
  : t * option exn :=
  let store1 :=
    store p ++ [add_partial_call launcher_id timestamp difficulty error] in
  match error with
  | None =>
      let '(c, o) :=
        PartialsCache.add estimated_size_of (hex launcher_id) timestamp
          difficulty now_own now_all (cache p) in
      match o with
      | PartialsCache.NotDue => (mk store1 c (keep_interval p), None)
      | PartialsCache.Updated call =>
          (mk (store1 ++ [call]) c (keep_interval p), None)
      | PartialsCache.Raised e => (mk store1 c (keep_interval p), Some e)
      end
  | Some _ => (mk store1 (cache p) (keep_interval p), None)
  end.

End Estimate.

(** [(uint64(x[0]), uint64(x[1])) for x in l] *)
Fixpoint uint64_pairs (l : list partial) : option (list partial) :=
  match l with
  | [] => Some []
  | (a, b) :: rest =>
      match uint64 a, uint64 b, uint64_pairs rest with
      | Some a', Some b', Some rest' => Some ((a', b') :: rest')
      | _, _, _ => None
      end
  end.

(** [get_recent_partials(launcher_id, number_of_partials)] *)
Definition get_recent_partials
    (launcher_id : list byte) (number_of_partials : Z) (p : t)
  : t * (list partial + exn) :=
  let '(c, pi) := PartialsCache.getitem (hex launcher_id) (cache p) in
  (with_cache c p,
   match
     uint64_pairs
       (rev (slice_from (- number_of_partials) (PartialsInterval.partials pi)))
   with
   | Some l => inl l
   | None => inr ValueError
   end).

(** The [for] loop of [get_farmer_points_and_payout_instructions], with
    the list built so far and the error lines logged so far;
    [None] when [uint64] raises. *)
Fixpoint collect
    (launcher_id_and_ph : Dict.t string)
    (items : Dict.t PartialsInterval.t)
    (points_and_ph : list (Z * string)) (logged : list (string * Z))
  : option (list (Z * string) * list (string * Z)) :=
  match items with
  | [] => Some (points_and_ph, logged)
  | (launcher_id, points_interval) :: rest =>
      let points := PartialsInterval.points points_interval in
      if points =? 0
      then collect launcher_id_and_ph rest points_and_ph logged
      else
        match Dict.get launcher_id launcher_id_and_ph with
        | None =>
            collect launcher_id_and_ph rest points_and_ph
              (logged ++ [(launcher_id, points)])
        | Some ph =>
            match uint64 points with
            | None => None
            | Some v =>
                collect launcher_id_and_ph rest (points_and_ph ++ [(v, ph)])
                  logged
            end
        end
  end.

(** What [get_farmer_points_and_payout_instructions] returns, with the
    error lines it logged. *)
Record payout : Type := mk_payout {
  points_and_ph : list (Z * string);
  total_points : Z;
  errors_logged : list (string * Z)
}.

(** [get_farmer_points_and_payout_instructions()], with
    [launcher_id_and_ph] the dictionary that the store returned. *)
Definition get_farmer_points_and_payout_instructions
    (launcher_id_and_ph : Dict.t string) (p : t) : payout + exn :=
  match
    collect launcher_id_and_ph (PartialsCache.items (cache p)) [] []
  with
  | Some (l, logged) =>
      inl (mk_payout l (PartialsInterval.points (PartialsCache.all (cache p)))
             logged)
  | None => inr ValueError
  end.

End Partials.

(** ** Values used on concrete runs *)

(** The estimated size in exact arithmetic,
    [points / (time_target * 1.088e-15)] truncated towards zero.  It takes
    the place of the float computation on the concrete runs below; the
    general theorems hold for every estimate. *)
Definition exact_estimated_size
    (points time_target : Z) (selected_network : string) : option Z :=
  if time_target =? 0 then None
  else
    let estimated_size := Z.quot (points * 10 ^ 18) (time_target * 1088) in
    Some (if String.eqb selected_network "testnet7"
          then Z.quot estimated_size 14680000
          else estimated_size).

(** A mainnet cache that keeps 100 seconds with a time target of 100
    seconds, and a tracker over it. *)
Definition cache_100 : PartialsCache.t :=
  PartialsCache.init 100 100 "mainnet"%string.

Definition partials_100 : Partials.t :=
  Partials.init (Some 100) 100 "mainnet"%string.

(** Launcher ["a"] at time 0, then launcher ["b"] at time 200. *)
Definition two_launchers : list PartialsCache.call :=
  [PartialsCache.mk_call "a"%string 0 10 0 0;
   PartialsCache.mk_call "b"%string 200 5 200 200].

(** Five partials of launcher ["a"], one per second. *)
Definition five_partials : list PartialsCache.call :=
  [PartialsCache.mk_call "a"%string 1 10 1 1;
   PartialsCache.mk_call "a"%string 2 10 2 2;
   PartialsCache.mk_call "a"%string 3 10 3 3;
   PartialsCache.mk_call "a"%string 4 10 4 4;
   PartialsCache.mk_call "a"%string 5 10 5 5].

(** The tracker after the partials (1,5), (2,7), (3,9) of one launcher. *)
Definition launcher_0a : list byte := [x0a].

Definition three_partials : Partials.t :=
  let add t d p :=
    fst (Partials.add_partial exact_estimated_size launcher_0a t d None t t p) in
  add 3 9 (add 2 7 (add 1 5 partials_100)).

(** A tracker with three launchers: ["0a"] with a partial, ["0b"] known
    only from a read, so without points, and ["0c"] with a partial; and
    payout instructions for the first two only. *)
Definition three_launchers : Partials.t :=
  let p1 :=
    fst (Partials.add_partial exact_estimated_size [x0a] 1 5 None 1 1
           partials_100) in
  let p2 := fst (Partials.get_recent_partials [x0b] 1 p1) in
  fst (Partials.add_partial exact_estimated_size [x0c] 2 7 None 2 2 p2).

Definition instructions_a_b : Dict.t string :=
  [("0a", "xch_a"); ("0b", "xch_b")]%string.

(** The scenario of three partials at times 0, 50 and 90, each added at
    its own time to an interval that keeps 100 seconds. *)
Definition scenario : list PartialsInterval.call :=
  [PartialsInterval.mk_call 0 0 10 true;
   PartialsInterval.mk_call 50 50 20 true;
   PartialsInterval.mk_call 90 90 5 true].

(** A tracker whose only launcher has two partials of difficulty 2^63. *)
Definition two_large_partials : Partials.t :=
  let add t p :=
    fst (Partials.add_partial exact_estimated_size launcher_0a t (2 ^ 63) None
           t t p) in
  add 2 (add 1 partials_100).

(** A cache that keeps 100 seconds with a time target of 200 seconds,
    after a partial of launcher ["a"]; and a first partial of ["b"]. *)
Definition cache_100_200 : PartialsCache.t :=
  PartialsCache.init 100 200 "mainnet"%string.

Definition first_of_a : PartialsCache.call :=
  PartialsCache.mk_call "a"%string 1 10 1 1.

Definition first_of_b : PartialsCache.call :=
  PartialsCache.mk_call "b"%string 2 5 2 2.

(** The tracker after a partial of launcher ["0a"] at time 0 and a
    partial of launcher ["0b"] at time 200, with 100 seconds kept. *)
Definition idle_launcher : Partials.t :=
  let p1 :=
    fst (Partials.add_partial exact_estimated_size [x0a] 0 10 None 0 0
           partials_100) in
  fst (Partials.add_partial exact_estimated_size [x0b] 200 5 None 200 200 p1).

(** ** Reference definitions of the payout pass *)

(** The values that [uint64] accepts. *)
Definition fits_uint64 (v : Z) : Prop := 0 <= v < 2 ^ 64.

(** The pairs expected from the payout pass: one pair for each launcher
    of the cache, in its order, that has points and payout instructions. *)
Definition payable
    (launcher_id_and_ph : Dict.t string) (items : Dict.t PartialsInterval.t)
  : list (Z * string) :=
  flat_map
    (fun kv =>
       match Dict.get (fst kv) launcher_id_and_ph with
       | Some ph =>
           if PartialsInterval.points (snd kv) =? 0 then []
           else [(PartialsInterval.points (snd kv), ph)]
       | None => []
       end)
    items.

(** The launchers with points and no payout instructions. *)
Definition without_instructions
    (launcher_id_and_ph : Dict.t string) (items : Dict.t PartialsInterval.t)
  : list (string * Z) :=
  flat_map
    (fun kv =>
       match Dict.get (fst kv) launcher_id_and_ph with
       | Some _ => []
       | None =>
           if PartialsInterval.points (snd kv) =? 0 then []
           else [(fst kv, PartialsInterval.points (snd kv))]
       end)
    items.

(** ** Operations of the tracker, in sequence *)

(** A call of one of the methods of [Partials], with what it reads from
    outside: clock values, the rows that the store returns to
    [load_from_store], the dictionary that it returns to the payout pass. *)
Inductive op : Type :=
  | op_load_from_store (now : Z) (rows : list (string * Z * Z))
  | op_add_partial
      (launcher_id : list byte) (timestamp difficulty : Z)
      (error : option string) (now_own now_all : Z)
  | op_get_recent_partials (launcher_id : list byte) (number_of_partials : Z)
  | op_get_farmer_points (launcher_id_and_ph : Dict.t string).

Section Operations.

Variable estimated_size_of : Z -> Z -> string -> option Z.

(** The tracker after one call; an exception leaves the changes made
    before it, and the payout pass changes nothing. *)
Definition step (o : op) (p : Partials.t) : Partials.t :=
  match o with
  | op_load_from_store now rows => Partials.load_from_store now rows p
  | op_add_partial launcher_id timestamp difficulty error now_own now_all =>
      fst (Partials.add_partial estimated_size_of launcher_id timestamp
             difficulty error now_own now_all p)
  | op_get_recent_partials launcher_id number_of_partials =>
      fst (Partials.get_recent_partials launcher_id number_of_partials p)
  | op_get_farmer_points _ => p
  end.

Fixpoint run_ops (ops : list op) (p : Partials.t) : Partials.t :=
  match ops with
  | [] => p
  | o :: rest => run_ops rest (step o p)
  end.

End Operations.

(** The records that a sequence of calls asks the store to keep: one per
    [add_partial], in order. *)
Fixpoint partials_recorded (ops : list op) : list store_call :=
  match ops with
  | [] => []
  | op_add_partial launcher_id timestamp difficulty error _ _ :: rest =>
      add_partial_call launcher_id timestamp difficulty error
      :: partials_recorded rest
  | _ :: rest => partials_recorded rest
  end.

Definition is_add_partial_call (c : store_call) : bool :=
  match c with
  | add_partial_call _ _ _ _ => true
  | update_estimated_size_and_pplns_call _ _ _ _ => false
  end.

(** The rows of a launcher among the rows of the store, as partials. *)
Definition row_partial (row : string * Z * Z) : partial :=
  (snd (fst row), snd row).

Definition rows_of (launcher_id : string) (rows : list (string * Z * Z))
  : list partial :=
  map row_partial
    (filter (fun row => String.eqb launcher_id (fst (fst row))) rows).

(** The sum of the counters of the intervals of the dictionary. *)
Definition sum_additions (d : Dict.t PartialsInterval.t) : Z :=
  Dict.sum PartialsInterval.additions d.

(** All the intervals of a cache satisfy [P]. *)
Definition every_interval (P : PartialsInterval.t -> Prop) (c : PartialsCache.t)
  : Prop :=
  P (PartialsCache.all c)
  /\ Forall (fun kv => P (snd kv)) (PartialsCache.items c).

(** What every method of [Partials] keeps true of the cache: the keys are
    distinct, the intervals keep the same number of seconds as the cache,
    their totals are the sums of their lists, and the counter of the
    interval of all launchers is the sum of the counters of the others. *)
Definition well_formed (keep : Z) (c : PartialsCache.t) : Prop :=
  NoDup (map fst (PartialsCache.items c))
  /\ PartialsCache.keep_interval c = keep
  /\ every_interval
       (fun pi => PartialsInterval.consistent pi
                  /\ PartialsInterval.keep_interval pi = keep) c
  /\ PartialsInterval.additions (PartialsCache.all c)
     = sum_additions (PartialsCache.items c).

(** ** Reading hexadecimal keys back *)

(** The value of a hexadecimal digit and the byte of two digits, as
    [bytes.fromhex] reads them; they serve to invert [hex]. *)
Definition hex_value (a : ascii) : N :=
  let n := N_of_ascii a in
  if (48 <=? n)%N && (n <=? 57)%N then (n - 48)%N
  else if (97 <=? n)%N && (n <=? 102)%N then (n - 87)%N
  else 0%N.

Fixpoint unhex (s : string) : option (list byte) :=
  match s with
  | EmptyString => Some []
  | String a (String b rest) =>
      match Byte.of_N (16 * hex_value a + hex_value b), unhex rest with
      | Some x, Some l => Some (x :: l)
      | _, _ => None
      end
  | String _ EmptyString => None
  end.

(** * Properties *)

(** ** Sums, filters and chronological lists *)

Section Lists.

Lemma sum_difficulty_app (l1 l2 : list partial) :
  sum_difficulty (l1 ++ l2) = sum_difficulty l1 + sum_difficulty l2.
Proof.
  induction l1 as [|[t d] l1 IH]; simpl; [reflexivity | rewrite IH; ring].
Qed.

Lemma points_since_app (cutoff : Z) (l1 l2 : list partial) :
  points_since cutoff (l1 ++ l2)
  = points_since cutoff l1 + points_since cutoff l2.
Proof.
  unfold points_since. now rewrite filter_app, sum_difficulty_app.
Qed.

Lemma filter_all (cutoff : Z) (l : list partial) :
  Forall (fun x => cutoff <= fst x) l -> filter (not_before cutoff) l = l.
Proof.
  induction 1 as [|x l Hx _ IH]; simpl; [reflexivity|].
  unfold not_before at 1.
  destruct (Z.leb_spec cutoff (fst x)); [now rewrite IH | lia].
Qed.

Lemma filter_none (cutoff : Z) (l : list partial) :
  Forall (fun x => fst x < cutoff) l -> filter (not_before cutoff) l = [].
Proof.
  induction 1 as [|x l Hx _ IH]; simpl; [reflexivity|].
  unfold not_before at 1.
  destruct (Z.leb_spec cutoff (fst x)); [lia | exact IH].
Qed.

Lemma filter_not_before (cutoff : Z) (l : list partial) :
  Forall (fun x => cutoff <= fst x) (filter (not_before cutoff) l).
Proof.
  apply Forall_forall. intros x Hx. apply filter_In in Hx.
  destruct Hx as [_ Hx]. unfold not_before in Hx. lia.
Qed.

(** A later cutoff absorbs an earlier one. *)
Lemma filter_filter_later (c1 c2 : Z) (l : list partial) :
  c1 <= c2 ->
  filter (not_before c2) (filter (not_before c1) l) = filter (not_before c2) l.
Proof.
  intros Hc. induction l as [|x l IH]; simpl; [reflexivity|].
  destruct (not_before c1 x) eqn:E1; simpl;
    destruct (not_before c2 x) eqn:E2; rewrite ?IH; try reflexivity.
  unfold not_before in E1, E2. lia.
Qed.

Lemma chronological_cons (x : partial) (l : list partial) :
  chronological (x :: l) <->
  chronological l /\ Forall (fun y => fst x <= fst y) l.
Proof.
  unfold chronological, nondecreasing. simpl. split.
  - intros H. apply StronglySorted_inv in H. destruct H as [H1 H2].
    split; [exact H1|]. now rewrite Forall_map in H2.
  - intros [H1 H2]. constructor; [exact H1 | now rewrite Forall_map].
Qed.

Lemma chronological_app (l1 l2 : list partial) :
  chronological (l1 ++ l2) -> chronological l1 /\ chronological l2.
Proof.
  induction l1 as [|x l1 IH]; simpl; intros H.
  - split; [constructor | exact H].
  - apply chronological_cons in H. destruct H as [H1 H2].
    destruct (IH H1) as [Ha Hb]. split; [|exact Hb].
    apply chronological_cons. split; [exact Ha|].
    apply Forall_app in H2. tauto.
Qed.

(** Appending a partial that is not older than any of the list. *)
Lemma chronological_snoc (l : list partial) (x : partial) :
  chronological l -> Forall (fun y => fst y <= fst x) l ->
  chronological (l ++ [x]).
Proof.
  induction l as [|y l IH]; simpl; intros Hc Hle.
  - apply chronological_cons. split; constructor.
  - apply chronological_cons in Hc. destruct Hc as [Hc Hy].
    apply Forall_cons_iff in Hle. destruct Hle as [Hyx Hle].
    apply chronological_cons. split; [now apply IH|].
    apply Forall_app. split; [exact Hy | now constructor].
Qed.

Lemma chronological_snoc_inv (l : list partial) (x : partial) :
  chronological (l ++ [x]) -> Forall (fun y => fst y <= fst x) l.
Proof.
  induction l as [|y l IH]; simpl; intros H; [constructor|].
  apply chronological_cons in H. destruct H as [H1 H2].
  constructor; [|now apply IH].
  apply Forall_app in H2. destruct H2 as [_ H2].
  now apply Forall_cons_iff in H2.
Qed.

End Lists.

(** ** The eviction loop *)

Section Evict.

Import PartialsInterval.

(** Every removal is paid for: the total moves with the list. *)
Lemma evict_points (drop_time : Z) (l : list partial) (p : Z) :
  snd (evict drop_time l p)
  = p - sum_difficulty l + sum_difficulty (fst (evict drop_time l p)).
Proof.
  revert p. induction l as [|[t d] l IH]; intros p; simpl.
  - ring.
  - destruct (t <? drop_time).
    + rewrite IH. ring.
    + simpl. ring.
Qed.

(** The loop removes a prefix of expired partials. *)
Lemma evict_prefix (drop_time : Z) (l : list partial) (p : Z) :
  exists pre,
    l = pre ++ fst (evict drop_time l p)
    /\ Forall (fun x => fst x < drop_time) pre.
Proof.
  revert p. induction l as [|[t d] l IH]; intros p; simpl.
  - exists []. split; [reflexivity | constructor].
  - destruct (Z.ltb_spec t drop_time).
    + destruct (IH (p - d)) as [pre [Heq Hpre]].
      exists ((t, d) :: pre). split.
      * simpl. now rewrite <- Heq.
      * constructor; [exact H | exact Hpre].
    + exists []. split; [reflexivity | constructor].
Qed.

(** On a chronological list the prefix scan keeps exactly the partials
    that are not expired. *)
Lemma evict_chronological (drop_time : Z) (l : list partial) (p : Z) :
  chronological l ->
  fst (evict drop_time l p) = filter (not_before drop_time) l.
Proof.
  revert p. induction l as [|[t d] l IH]; intros p Hc; simpl.
  - reflexivity.
  - apply chronological_cons in Hc. destruct Hc as [Hc Hle]. simpl in Hle.
    unfold not_before at 1. simpl.
    destruct (Z.ltb_spec t drop_time); destruct (Z.leb_spec drop_time t);
      try lia.
    + now apply IH.
    + simpl. f_equal. symmetry. apply filter_all.
      eapply Forall_impl; [|exact Hle]. simpl. intros; lia.
Qed.

(** If even the newest partial is expired, nothing is kept. *)
Lemma evict_all_expired (drop_time : Z) (l : list partial) (p : Z) :
  Forall (fun x => fst x < drop_time) l ->
  fst (evict drop_time l p) = [].
Proof.
  intros H. revert p. induction H as [|[t d] l Hx _ IH]; intros p; simpl.
  - reflexivity.
  - simpl in Hx. destruct (Z.ltb_spec t drop_time); [apply IH | lia].
Qed.

End Evict.

(** ** PartialsInterval *)

Section Interval.

Import PartialsInterval.

Lemma add_keep_interval now t d remove s :
  keep_interval (fst (add now t d remove s)) = keep_interval s.
Proof.
  unfold add. destruct remove; [destruct (evict _ _ _)|]; reflexivity.
Qed.

Lemma add_additions now t d remove s :
  additions (fst (add now t d remove s)) = additions s + 1
  /\ snd (add now t d remove s) = additions s.
Proof.
  unfold add. destruct remove; [destruct (evict _ _ _)|]; split; reflexivity.
Qed.

(** What [add] leaves in the list and in the total, by the flag. *)
Lemma add_partials now t d remove s :
  partials (fst (add now t d remove s))
  = if remove
    then fst (evict (now - keep_interval s) (partials s ++ [(t, d)])
                (points s + d))
    else partials s ++ [(t, d)].
Proof.
  unfold add. destruct remove; [destruct (evict _ _ _)|]; reflexivity.
Qed.

Lemma add_points now t d remove s :
  points (fst (add now t d remove s))
  = if remove
    then snd (evict (now - keep_interval s) (partials s ++ [(t, d)])
                (points s + d))
    else points s + d.
Proof.
  unfold add. destruct remove; [destruct (evict _ _ _)|]; reflexivity.
Qed.

Lemma add_consistent now t d remove s :
  consistent s -> consistent (fst (add now t d remove s)).
Proof.
  unfold consistent. intros H.
  rewrite add_points, add_partials. destruct remove.
  - rewrite evict_points, sum_difficulty_app, H. simpl. ring.
  - rewrite sum_difficulty_app, H. simpl. ring.
Qed.

Lemma run_consistent calls s :
  consistent s -> consistent (run calls s).
Proof.
  revert s. induction calls as [|c calls IH]; intros s H; simpl.
  - exact H.
  - apply IH. now apply add_consistent.
Qed.

Lemma run_keep_interval calls s :
  keep_interval (run calls s) = keep_interval s.
Proof.
  revert s. induction calls as [|c calls IH]; intros s; simpl.
  - reflexivity.
  - rewrite IH. apply add_keep_interval.
Qed.

(** [add] keeps a suffix of the list with the new partial appended. *)
Lemma add_suffix now t d remove s :
  exists pre,
    partials s ++ [(t, d)] = pre ++ partials (fst (add now t d remove s)).
Proof.
  rewrite add_partials. destruct remove.
  - destruct (evict_prefix (now - keep_interval s) (partials s ++ [(t, d)])
                (points s + d)) as [pre [Heq _]].
    now exists pre.
  - now exists [].
Qed.

(** Calls in chronological order keep the list chronological, also with
    the calls still to come. *)
Lemma run_chronological calls more s :
  chronological (partials s ++ map event_of (calls ++ more)) ->
  chronological (partials (run calls s) ++ map event_of more).
Proof.
  revert s. induction calls as [|c calls IH]; intros s H; simpl.
  - exact H.
  - apply IH.
    destruct (add_suffix (c_now c) (c_timestamp c) (c_difficulty c)
                (c_remove c) s) as [pre Hpre].
    set (rest := map event_of (calls ++ more)).
    assert (E : partials s ++ map event_of ((c :: calls) ++ more)
                = pre ++ partials (fst (do_call c s)) ++ rest).
    { rewrite (app_assoc pre).
      transitivity ((partials s ++ [event_of c]) ++ rest).
      - exact (app_assoc (partials s) [event_of c] rest).
      - exact (f_equal (fun l => l ++ rest) Hpre). }
    rewrite E in H.
    apply chronological_app in H. exact (proj2 H).
Qed.

Lemma returns_from calls s :
  returns calls s
  = map (fun i => additions s + Z.of_nat i) (seq 0 (List.length calls)).
Proof.
  revert s. induction calls as [|c calls IH]; intros s; simpl.
  - reflexivity.
  - unfold do_call at 1.
    rewrite (proj2 (add_additions _ _ _ _ s)). f_equal; [lia|].
    rewrite IH. unfold do_call.
    rewrite (proj1 (add_additions _ _ _ _ s)).
    rewrite <- seq_shift, map_map. apply map_ext. intros i. lia.
Qed.

Lemma sum_difficulty_nonneg (l : list partial) :
  Forall (fun x => 0 <= snd x) l -> 0 <= sum_difficulty l.
Proof.
  induction 1 as [|[t d] l Hx _ IH]; simpl in *; lia.
Qed.

(** C3: after any sequence of [add] calls on a new interval, with or
    without removal, [points] is the sum of the difficulties of the
    partials held; if none is held [points] is 0; and the removal loop on
    an empty list changes nothing. *)
Theorem C3_points_is_sum_of_partials :
  forall (keep : Z) (calls : list call),
    let s := run calls (init keep) in
    points s = sum_difficulty (partials s)
    /\ (partials s = [] -> points s = 0)
    /\ (forall drop_time p, evict drop_time [] p = ([], p)).
Proof.
  intros keep calls s.
  assert (H : consistent s) by (apply run_consistent; reflexivity).
  split; [exact H|]. split.
  - intros E. unfold consistent in H. now rewrite H, E.
  - reflexivity.
Qed.

(** C4 (as amended): the numbers returned by successive [add] calls on an
    interval go up by one at each call, so they strictly increase, and
    on a new interval they start from 0. *)
Theorem C4_sequence_numbers_count_from_zero :
  forall (keep : Z) (calls : list call),
    returns calls (init keep)
    = map Z.of_nat (seq 0 (List.length calls))
    /\ (forall s c1 c2,
           snd (do_call c2 (fst (do_call c1 s))) = snd (do_call c1 s) + 1
           /\ snd (do_call c1 s) < snd (do_call c2 (fst (do_call c1 s)))).
Proof.
  intros keep calls. split.
  - rewrite returns_from. apply map_ext. intros i. simpl. lia.
  - intros s c1 c2. unfold do_call.
    rewrite !(proj2 (add_additions _ _ _ _ _)).
    rewrite (proj1 (add_additions _ _ _ _ s)). lia.
Qed.

(** C4, the claim as stated fails: the first [add] on a new interval
    returns 0, not 1. *)
Lemma C4_first_add_returns_zero :
  snd (add 100 100 1 true (init 86400)) = 0
  /\ snd (add 100 100 1 true (init 86400)) <> 1.
Proof.
  split; [reflexivity | discriminate].
Qed.

(** C1: after calls with non-decreasing timestamps on a new interval, an
    [add] with removal leaves exactly the partials, of those held before
    and the new one, whose timestamp is at least [now - keep_interval],
    and [points] is the sum of their difficulties. *)
Theorem C1_points_after_eviction :
  forall (keep : Z) (calls : list call) (now t d : Z),
    nondecreasing (map c_timestamp calls ++ [t]) ->
    let s := run calls (init keep) in
    let s' := fst (add now t d true s) in
    partials s' = filter (not_before (now - keep)) (partials s ++ [(t, d)])
    /\ points s' = points_since (now - keep) (partials s')
    /\ points s' = points_since (now - keep) (partials s ++ [(t, d)]).
Proof.
  intros keep calls now t d Hsorted s s'.
  assert (Hc : chronological (partials s ++ [(t, d)])).
  { apply (run_chronological calls [mk_call now t d true] (init keep)).
    unfold chronological.
    replace (map fst (partials (init keep)
                      ++ map event_of (calls ++ [mk_call now t d true])))
      with (map c_timestamp calls ++ [t]); [exact Hsorted|].
    simpl. now rewrite map_map, map_app. }
  assert (Hk : keep_interval s = keep) by apply run_keep_interval.
  assert (Hs : consistent s) by (apply run_consistent; reflexivity).
  assert (Hp : partials s'
               = filter (not_before (now - keep)) (partials s ++ [(t, d)])).
  { unfold s'. rewrite add_partials, Hk. now apply evict_chronological. }
  assert (Hs' : consistent s') by now apply add_consistent.
  split; [exact Hp|]. unfold points_since. split.
  - rewrite Hp at 1. rewrite filter_all by apply filter_not_before.
    rewrite <- Hp. exact Hs'.
  - rewrite <- Hp. exact Hs'.
Qed.

(** What [add] drops was expired at the clock value of the call. *)
Lemma add_dropped_expired now t d remove s :
  exists pre,
    partials s ++ [(t, d)] = pre ++ partials (fst (add now t d remove s))
    /\ Forall (fun x => remove = true /\ fst x < now - keep_interval s) pre.
Proof.
  rewrite add_partials. destruct remove.
  - destruct (evict_prefix (now - keep_interval s) (partials s ++ [(t, d)])
                (points s + d)) as [pre [Heq Hpre]].
    exists pre. split; [exact Heq|].
    eapply Forall_impl; [|exact Hpre]. simpl. auto.
  - exists []. split; [reflexivity | constructor].
Qed.

(** From a cutoff that is not before any cutoff used so far, the list held
    and the list of everything added look the same. *)
Lemma run_recent calls :
  forall s cutoff,
    Forall (fun c => c_now c - keep_interval s <= cutoff) calls ->
    filter (not_before cutoff) (partials (run calls s))
    = filter (not_before cutoff) (partials s ++ map event_of calls).
Proof.
  induction calls as [|c calls IH]; intros s cutoff Hnow; simpl.
  - now rewrite app_nil_r.
  - apply Forall_cons_iff in Hnow. destruct Hnow as [Hc Hnow].
    rewrite IH by (unfold do_call; now rewrite add_keep_interval).
    destruct (add_dropped_expired (c_now c) (c_timestamp c) (c_difficulty c)
                (c_remove c) s) as [pre [Heq Hpre]].
    change (partials s ++ event_of c :: map event_of calls)
      with (partials s ++ [event_of c] ++ map event_of calls).
    rewrite (app_assoc (partials s)).
    unfold do_call.
    transitivity
      (filter (not_before cutoff)
         ((pre ++ partials (fst (add (c_now c) (c_timestamp c) (c_difficulty c)
                                   (c_remove c) s)))
          ++ map event_of calls)).
    + rewrite <- (app_assoc pre), (filter_app _ pre), (filter_none cutoff pre);
        [reflexivity|].
      eapply Forall_impl; [|exact Hpre]. simpl. intros x [_ Hx]. lia.
    + f_equal. f_equal. symmetry. exact Heq.
Qed.

(** X15: with clock values that never exceed the one of the last call, the
    total after an [add] with removal also counts everything ever added
    that is not older than the cutoff, and nothing else. *)
Lemma points_after_eviction_of_all_added
    (keep : Z) (calls : list call) (now t d : Z) :
  nondecreasing (map c_timestamp calls ++ [t]) ->
  Forall (fun c => c_now c <= now) calls ->
  points (fst (add now t d true (run calls (init keep))))
  = points_since (now - keep) (map event_of calls ++ [(t, d)]).
Proof.
  intros Hsorted Hnow.
  set (s := run calls (init keep)).
  assert (Hc : chronological (partials s ++ [(t, d)])).
  { apply (run_chronological calls [mk_call now t d true] (init keep)).
    unfold chronological.
    replace (map fst (partials (init keep)
                      ++ map event_of (calls ++ [mk_call now t d true])))
      with (map c_timestamp calls ++ [t]); [exact Hsorted|].
    simpl. now rewrite map_map, map_app. }
  assert (Hk : keep_interval s = keep) by apply run_keep_interval.
  assert (Hs : consistent (fst (add now t d true s)))
    by (apply add_consistent, run_consistent; reflexivity).
  unfold consistent in Hs. rewrite Hs, add_partials, Hk.
  rewrite evict_chronological by exact Hc.
  unfold points_since. rewrite !filter_app. f_equal. f_equal.
  apply (run_recent calls (init keep) (now - keep)).
  eapply Forall_impl; [|exact Hnow]. simpl. intros; lia.
Qed.

(** C10: if the partial that is added is already older than
    [now - keep_interval] and the list with it is chronological, [add]
    with removal drops it together with everything before it: the list
    is empty and [points] is 0 after the call, which is not more than
    before when no difficulty is negative. *)
Theorem C10_add_can_evict_its_own_partial :
  forall (s : t) (now t d : Z),
    consistent s ->
    chronological (partials s ++ [(t, d)]) ->
    t < now - keep_interval s ->
    let s' := fst (add now t d true s) in
    partials s' = []
    /\ points s' = 0
    /\ (Forall (fun x => 0 <= snd x) (partials s) -> points s' <= points s).
Proof.
  intros s now t d Hs Hc Hold s'.
  assert (Hp : partials s' = []).
  { unfold s'. rewrite add_partials. apply evict_all_expired.
    apply Forall_app. split.
    - apply chronological_snoc_inv in Hc.
      eapply Forall_impl; [|exact Hc]. simpl. intros; lia.
    - constructor; [exact Hold | constructor]. }
  assert (Hs' : consistent s') by now apply add_consistent.
  unfold consistent in Hs'. rewrite Hp in Hs'. simpl in Hs'.
  split; [exact Hp|]. split; [exact Hs'|].
  intros Hpos. rewrite Hs', Hs. now apply sum_difficulty_nonneg.
Qed.

End Interval.

(** ** Dictionaries *)

Section DictFacts.

Context {V : Type}.
Implicit Types (d : Dict.t V) (k : string) (v : V).

Lemma get_set_same k v d : Dict.get k (Dict.set k v d) = Some v.
Proof.
  induction d as [|[k' v'] d IH]; simpl.
  - now rewrite String.eqb_refl.
  - destruct (String.eqb k k') eqn:E; simpl; rewrite E; [reflexivity | exact IH].
Qed.

Lemma get_set_other k k' v d :
  String.eqb k' k = false -> Dict.get k' (Dict.set k v d) = Dict.get k' d.
Proof.
  intros Hne. induction d as [|[k0 v0] d IH]; simpl.
  - now rewrite Hne.
  - destruct (String.eqb k k0) eqn:E; simpl.
    + apply String.eqb_eq in E. subst k0. now rewrite Hne.
    + now rewrite IH.
Qed.

(** Assigning a key twice is assigning it once. *)
Lemma set_set k v w d : Dict.set k v (Dict.set k w d) = Dict.set k v d.
Proof.
  induction d as [|[k' v'] d IH]; simpl.
  - now rewrite String.eqb_refl.
  - destruct (String.eqb k k') eqn:E; simpl; rewrite E; [reflexivity|].
    now rewrite IH.
Qed.

(** An assignment moves a sum by the difference of the two values. *)
Lemma sum_set (f : V -> Z) k v d :
  Dict.sum f (Dict.set k v d)
  = Dict.sum f d + f v
    - match Dict.get k d with Some old => f old | None => 0 end.
Proof.
  induction d as [|[k' v'] d IH]; simpl.
  - ring.
  - destruct (String.eqb k k'); simpl; [ring | rewrite IH; ring].
Qed.

Lemma sum_ext (f g : V -> Z) d :
  Forall (fun kv => f (snd kv) = g (snd kv)) d -> Dict.sum f d = Dict.sum g d.
Proof.
  induction 1 as [|[k v] d Hx _ IH]; simpl in *; [reflexivity | lia].
Qed.

Lemma Forall_get (P : V -> Prop) k v d :
  Forall (fun kv => P (snd kv)) d -> Dict.get k d = Some v -> P v.
Proof.
  induction 1 as [|[k' v'] d Hx _ IH]; simpl; [discriminate|].
  destruct (String.eqb k k'); [|exact IH].
  intros E. injection E as <-. exact Hx.
Qed.

Lemma Forall_set (P : V -> Prop) k v d :
  Forall (fun kv => P (snd kv)) d -> P v ->
  Forall (fun kv => P (snd kv)) (Dict.set k v d).
Proof.
  intros Hd Hv. induction Hd as [|[k' v'] d Hx Hd IH]; simpl.
  - constructor; [exact Hv | constructor].
  - destruct (String.eqb k k'); constructor; auto.
Qed.

End DictFacts.

(** ** PartialsCache.add, one call *)

Section CacheAdd.

Import PartialsCache.

Variable estimated_size_of : Z -> Z -> string -> option Z.

(** [add] in one equation: the interval of the launcher (a new one if
    the key was absent) and the interval of all launchers both receive
    the partial, and the estimate step runs when the number returned by
    the launcher's interval is a multiple of 5. *)
Lemma add_eq launcher_id timestamp difficulty now_own now_all c :
  let own := PartialsInterval.add now_own timestamp difficulty true
               (current launcher_id c) in
  let all' := fst (PartialsInterval.add now_all timestamp difficulty true
                     (all c)) in
  add estimated_size_of launcher_id timestamp difficulty now_own now_all c
  = (mk (Dict.set launcher_id (fst own) (items c)) all' (keep_interval c)
        (time_target c) (selected_network c),
     if snd own mod 5 =? 0
     then estimate_outcome estimated_size_of launcher_id timestamp
            (time_target c)
            (selected_network c) (fst own) all'
     else NotDue).
Proof.
  unfold add, locked_adds, update_estimate, getitem, current, setitem,
    Dict.contains.
  destruct (Dict.get launcher_id (items c)) as [pi|] eqn:G; simpl.
  - rewrite G.
    destruct (PartialsInterval.add now_own timestamp difficulty true pi)
      as [pi' n] eqn:A. simpl.
    destruct (n mod 5 =? 0); [|reflexivity].
    simpl. now rewrite get_set_same.
  - rewrite get_set_same.
    destruct (PartialsInterval.add now_own timestamp difficulty true _)
      as [pi' n] eqn:A. simpl.
    rewrite set_set.
    destruct (n mod 5 =? 0); [|reflexivity].
    simpl. now rewrite get_set_same.
Qed.

Lemma run_app calls1 calls2 c :
  run estimated_size_of (calls1 ++ calls2) c
  = run estimated_size_of calls2 (run estimated_size_of calls1 c).
Proof.
  revert c. induction calls1 as [|o calls1 IH]; intros c; simpl;
    [reflexivity | apply IH].
Qed.

End CacheAdd.

(** ** PartialsCache.add, sequences of calls *)

Section CacheRuns.

Import PartialsCache.

Variable estimated_size_of : Z -> Z -> string -> option Z.

Lemma in_order_init keep latest :
  in_order keep latest (PartialsInterval.init keep).
Proof.
  repeat split; simpl; constructor.
Qed.

Lemma in_order_later keep latest latest' pi :
  in_order keep latest pi -> latest <= latest' -> in_order keep latest' pi.
Proof.
  intros (Hc & Hk & Hs & Hle) Hl. repeat split; try assumption.
  eapply Forall_impl; [|exact Hle]. simpl. intros; lia.
Qed.

(** One [add] with removal on an interval in order: the result is in order
    up to the new timestamp and holds what is not older than the cutoff. *)
Lemma in_order_add keep latest pi now t d :
  in_order keep latest pi -> latest <= t ->
  let pi' := fst (PartialsInterval.add now t d true pi) in
  in_order keep t pi'
  /\ PartialsInterval.partials pi'
     = filter (not_before (now - keep)) (PartialsInterval.partials pi ++ [(t, d)]).
Proof.
  intros (Hc & Hk & Hs & Hle) Hl pi'.
  assert (Hs1 : chronological (PartialsInterval.partials pi ++ [(t, d)])).
  { apply chronological_snoc; [exact Hs|].
    eapply Forall_impl; [|exact Hle]. simpl. intros; lia. }
  assert (Hp : PartialsInterval.partials pi'
               = filter (not_before (now - keep))
                   (PartialsInterval.partials pi ++ [(t, d)])).
  { unfold pi'. rewrite add_partials, Hk. now apply evict_chronological. }
  split; [|exact Hp].
  destruct (add_suffix now t d true pi) as [pre Hpre]. fold pi' in Hpre.
  repeat split.
  - now apply add_consistent.
  - unfold pi'. now rewrite add_keep_interval.
  - rewrite Hpre in Hs1. apply chronological_app in Hs1. tauto.
  - rewrite Hp. apply Forall_forall. intros x Hx.
    apply filter_In in Hx. destruct Hx as [Hx _].
    apply in_app_or in Hx. destruct Hx as [Hx|[<-|[]]]; [|simpl; lia].
    rewrite Forall_forall in Hle. specialize (Hle x Hx). simpl in Hle. lia.
Qed.

Lemma current_in_order keep cutoff latest k c :
  windowed keep cutoff latest c -> in_order keep latest (current k c).
Proof.
  intros (Hk & _ & Hitems & _). unfold current.
  destruct (Dict.get k (items c)) as [pi|] eqn:G.
  - exact (Forall_get (in_order keep latest) k pi (items c) Hitems G).
  - rewrite Hk. apply in_order_init.
Qed.

Lemma points_since_later c1 c2 l :
  c1 <= c2 ->
  points_since c2 (filter (not_before c1) l) = points_since c2 l.
Proof.
  intros H. unfold points_since. now rewrite filter_filter_later.
Qed.

(** One call keeps the relation, with the cutoff of the interval of all
    launchers as the new cutoff. *)
Lemma add_windowed keep cutoff latest k t d now_own now_all c :
  windowed keep cutoff latest c ->
  latest <= t -> cutoff <= now_all - keep -> now_own <= now_all ->
  windowed keep (now_all - keep) t
    (fst (add estimated_size_of k t d now_own now_all c)).
Proof.
  intros W Hl Hcut Hnow.
  pose proof (current_in_order keep cutoff latest k c W) as Hcur.
  destruct W as (Hk & Hall & Hitems & Hold & Hsum).
  rewrite add_eq. simpl.
  destruct (in_order_add keep latest (all c) now_all t d Hall Hl) as [Ha1 Ha2].
  destruct (in_order_add keep latest (current k c) now_own t d Hcur Hl)
    as [Ho1 Ho2].
  repeat split; simpl.
  - exact Hk.
  - apply Ha1.
  - apply Ha1.
  - apply Ha1.
  - apply Ha1.
  - apply Forall_set; [|exact Ho1].
    eapply Forall_impl; [|exact Hitems].
    intros kv H. now apply (in_order_later keep latest t).
  - rewrite Ha2. apply filter_not_before.
  - intros since Hsince. unfold sum_points_since.
    rewrite sum_set, Ha2, Ho2.
    rewrite !points_since_later by lia.
    rewrite !points_since_app.
    fold (sum_points_since since (items c)).
    rewrite <- (Hsum since) by lia.
    assert (E : match Dict.get k (items c) with
                | Some old => points_since since (PartialsInterval.partials old)
                | None => 0
                end = points_since since (PartialsInterval.partials (current k c))).
    { unfold current. destruct (Dict.get k (items c)); reflexivity. }
    rewrite E. ring.
Qed.

Lemma init_windowed keep time_target network cutoff latest :
  windowed keep cutoff latest (init keep time_target network).
Proof.
  repeat split; simpl; try constructor.
Qed.

Lemma nondecreasing_cons x l :
  nondecreasing (x :: l) -> nondecreasing l /\ Forall (fun y => x <= y) l.
Proof.
  intros H. apply StronglySorted_inv in H. exact H.
Qed.

(** A run of calls whose timestamps and clock values do not decrease keeps
    the relation; the cutoff and latest timestamp are those of the last
    call. *)
Lemma run_windowed keep calls :
  forall cutoff latest c,
    windowed keep cutoff latest c ->
    Forall (fun o => latest <= c_timestamp o) calls ->
    nondecreasing (map c_timestamp calls) ->
    Forall (fun n => cutoff + keep <= n) (clock_reads calls) ->
    nondecreasing (clock_reads calls) ->
    windowed keep
      (fold_left (fun _ o => c_now_all o - keep) calls cutoff)
      (fold_left (fun _ o => c_timestamp o) calls latest)
      (run estimated_size_of calls c).
Proof.
  induction calls as [|o calls IH]; intros cutoff latest c W Ht St Hn Sn.
  - exact W.
  - simpl in *.
    apply Forall_cons_iff in Ht. destruct Ht as [Ht0 Ht].
    apply nondecreasing_cons in St. destruct St as [St St0].
    apply Forall_cons_iff in Hn. destruct Hn as [Hn0 Hn].
    apply Forall_cons_iff in Hn. destruct Hn as [Hn1 Hn].
    apply nondecreasing_cons in Sn. destruct Sn as [Sn Sn0].
    apply nondecreasing_cons in Sn. destruct Sn as [Sn Sn1].
    apply Forall_cons_iff in Sn0. destruct Sn0 as [Sn0 _].
    apply IH; try assumption.
    + unfold do_call. apply (add_windowed keep cutoff latest); [exact W|lia..].
    + rewrite Forall_map in St0. exact St0.
    + eapply Forall_impl; [|exact Sn1]. simpl. intros; lia.
Qed.

Lemma lower_bound (l : list Z) : exists m, Forall (fun x => m <= x) l.
Proof.
  induction l as [|x l [m IH]].
  - exists 0. constructor.
  - exists (Z.min m x). constructor; [lia|].
    eapply Forall_impl; [|exact IH]. simpl. intros; lia.
Qed.

(** X16: after calls on an empty cache whose timestamps and clock values
    do not decrease, the points of the interval of all launchers are the
    sum, over the launchers, of the difficulties of their partials that are
    not older than the cutoff of the last call; if no launcher holds an
    older partial, they are the sum of the launchers' points. *)
Theorem all_points_is_sum_within_window :
  forall (keep time_target : Z) (network : string) (calls : list call)
         (o : call),
    nondecreasing (map c_timestamp (calls ++ [o])) ->
    nondecreasing (clock_reads (calls ++ [o])) ->
    let c := run estimated_size_of (calls ++ [o])
               (init keep time_target network) in
    let cutoff := c_now_all o - keep in
    PartialsInterval.points (all c) = sum_points_since cutoff (items c)
    /\ (Forall (fun kv => Forall (fun x => cutoff <= fst x)
                            (PartialsInterval.partials (snd kv))) (items c) ->
        PartialsInterval.points (all c) = sum_points (items c)).
Proof.
  intros keep time_target network calls o St Sn c cutoff.
  destruct (lower_bound (map c_timestamp (calls ++ [o]))) as [latest Hl].
  destruct (lower_bound (clock_reads (calls ++ [o]))) as [m Hm].
  assert (W : windowed keep cutoff (c_timestamp o) c).
  { pose proof (run_windowed keep (calls ++ [o]) (m - keep) latest
                  (init keep time_target network)
                  (init_windowed keep time_target network _ _)) as R.
    rewrite !fold_left_app in R. simpl in R. apply R; try assumption.
    - now rewrite Forall_map in Hl.
    - eapply Forall_impl; [|exact Hm]. simpl. intros; lia. }
  destruct W as (_ & (Hc & _) & Hitems & Hold & Hsum).
  assert (E : PartialsInterval.points (all c) = sum_points_since cutoff (items c)).
  { rewrite <- (Hsum cutoff) by lia. unfold points_since.
    rewrite filter_all by exact Hold. exact Hc. }
  split; [exact E|].
  intros Hfresh. rewrite E. apply sum_ext.
  apply Forall_forall. intros kv Hin.
  rewrite Forall_forall in Hfresh, Hitems.
  destruct (Hitems kv Hin) as (Hkv & _).
  unfold points_since. rewrite filter_all by now apply Hfresh.
  symmetry. exact Hkv.
Qed.

End CacheRuns.

(** ** The estimate step: when it runs and when it raises *)

Section CacheEstimate.

Import PartialsCache.

Variable estimated_size_of : Z -> Z -> string -> option Z.

Lemma current_add k k' t d now_own now_all c :
  current k (fst (add estimated_size_of k' t d now_own now_all c))
  = if String.eqb k k'
    then fst (PartialsInterval.add now_own t d true (current k' c))
    else current k c.
Proof.
  rewrite add_eq. unfold current. simpl.
  destruct (String.eqb k k') eqn:E.
  - apply String.eqb_eq in E. subst k'. now rewrite get_set_same.
  - now rewrite get_set_other.
Qed.

Lemma calls_for_cons k o calls :
  calls_for k (o :: calls)
  = (if String.eqb k (c_launcher_id o) then 1 else 0) + calls_for k calls.
Proof.
  unfold calls_for. simpl.
  destruct (String.eqb k (c_launcher_id o)); simpl List.length; lia.
Qed.

(** The counter of a launcher's interval counts the calls made for it. *)
Lemma additions_run calls :
  forall c k,
    PartialsInterval.additions (current k (run estimated_size_of calls c))
    = PartialsInterval.additions (current k c) + calls_for k calls.
Proof.
  induction calls as [|o calls IH]; intros c k.
  - unfold calls_for. simpl. lia.
  - simpl. rewrite IH, calls_for_cons. unfold do_call. rewrite current_add.
    destruct (String.eqb k (c_launcher_id o)) eqn:E; [|lia].
    apply String.eqb_eq in E. subst k.
    rewrite (proj1 (add_additions _ _ _ _ _)). lia.
Qed.

Lemma estimate_outcome_due k t tt network own all :
  estimate_outcome estimated_size_of k t tt network own all <> NotDue.
Proof.
  unfold estimate_outcome.
  destruct (estimated_size_of _ _ _); [|discriminate].
  destruct (decimal_div _ _); discriminate.
Qed.

Lemma run_config calls :
  forall c,
    time_target (run estimated_size_of calls c) = time_target c
    /\ selected_network (run estimated_size_of calls c) = selected_network c
    /\ keep_interval (run estimated_size_of calls c) = keep_interval c.
Proof.
  induction calls as [|o calls IH]; intros c; simpl.
  - repeat split.
  - destruct (IH (fst (do_call estimated_size_of o c))) as (H1 & H2 & H3).
    rewrite H1, H2, H3. unfold do_call. rewrite add_eq. repeat split.
Qed.

(** C6 (as amended): [add] raises nothing when the estimate step is not
    due; when the step is due it raises exactly when the float estimate
    raises or the points of all launchers are zero after the two
    additions: the exception of the estimate in the first case, the one of
    the division of the share in the second ([InvalidOperation] for 0/0,
    [DivisionByZero] otherwise); if the estimate returns and those points
    are not zero the update is reported.  The cache is updated in every
    case. *)
Theorem C6_add_raises_exactly_when_due_step_fails :
  forall (c : t) (o : call),
    let own := PartialsInterval.add (c_now_own o) (c_timestamp o)
                 (c_difficulty o) true (current (c_launcher_id o) c) in
    let number := snd own in
    let c' := fst (do_call estimated_size_of o c) in
    let result := snd (do_call estimated_size_of o c) in
    let points :=
      if PartialsInterval.keep_interval (fst own) =? time_target c
      then PartialsInterval.points (fst own)
      else points_since (c_timestamp o - time_target c)
             (PartialsInterval.partials (fst own)) in
    let total := PartialsInterval.points (all c') in
    let estimate :=
      estimated_size_of points (time_target c) (selected_network c) in
    (number mod 5 <> 0 -> result = NotDue)
    /\ (number mod 5 = 0 -> estimate = None -> result = Raised FloatError)
    /\ (number mod 5 = 0 ->
        forall estimated_size, estimate = Some estimated_size -> total <> 0 ->
        result = Updated (update_estimated_size_and_pplns_call
                            (c_launcher_id o) estimated_size points
                            (points, total)))
    /\ (number mod 5 = 0 -> estimate <> None -> total = 0 ->
        result = Raised (if points =? 0 then InvalidOperation
                         else DivisionByZero))
    /\ ((exists e, result = Raised e) <->
        number mod 5 = 0 /\ (estimate = None \/ total = 0))
    /\ c' = mk (Dict.set (c_launcher_id o) (fst own) (items c))
               (fst (PartialsInterval.add (c_now_all o) (c_timestamp o)
                       (c_difficulty o) true (all c)))
               (keep_interval c) (time_target c) (selected_network c).
Proof.
  intros c o own number c' result points total estimate.
  assert (E : do_call estimated_size_of o c
              = (c', if number mod 5 =? 0
                     then match estimate with
                          | None => Raised FloatError
                          | Some estimated_size =>
                              match decimal_div points total with
                              | inr e => Raised e
                              | inl share =>
                                  Updated (update_estimated_size_and_pplns_call
                                             (c_launcher_id o) estimated_size
                                             points share)
                              end
                          end
                     else NotDue)).
  { unfold c', total, c', estimate, points, number, own, do_call.
    rewrite add_eq. reflexivity. }
  assert (Er : result
               = if number mod 5 =? 0
                 then match estimate with
                      | None => Raised FloatError
                      | Some estimated_size =>
                          match decimal_div points total with
                          | inr e => Raised e
                          | inl share =>
                              Updated (update_estimated_size_and_pplns_call
                                         (c_launcher_id o) estimated_size
                                         points share)
                          end
                      end
                 else NotDue).
  { unfold result. now rewrite E. }
  assert (Ec : c' = mk (Dict.set (c_launcher_id o) (fst own) (items c))
                       (fst (PartialsInterval.add (c_now_all o) (c_timestamp o)
                               (c_difficulty o) true (all c)))
                       (keep_interval c) (time_target c) (selected_network c)).
  { unfold c', own, do_call. now rewrite add_eq. }
  clearbody result c' total estimate points number. clear E.
  unfold decimal_div in Er.
  destruct (Z.eqb_spec (number mod 5) 0) as [H5|H5].
  - destruct estimate as [es|].
    + destruct (Z.eqb_spec total 0) as [H0|H0]; subst result.
      * split; [intros H; contradiction|].
        split; [intros _ H; discriminate|].
        split; [intros _ es' _ Ht; contradiction|].
        split; [intros _ _ _; reflexivity|].
        split; [|exact Ec]. split.
        -- intros _. split; [exact H5 | now right].
        -- intros _. eexists. reflexivity.
      * split; [intros H; contradiction|].
        split; [intros _ H; discriminate|].
        split; [intros _ es' Hes _; injection Hes as <-; reflexivity|].
        split; [intros _ _ Ht; contradiction|].
        split; [|exact Ec]. split.
        -- intros [e He]. discriminate.
        -- intros [_ [He|He]]; [discriminate | contradiction].
    + subst result.
      split; [intros H; contradiction|].
      split; [intros _ _; reflexivity|].
      split; [intros _ es' Hes; discriminate|].
      split; [intros _ He; now contradiction He|].
      split; [|exact Ec]. split.
      * intros _. split; [exact H5 | now left].
      * intros _. eexists. reflexivity.
  - subst result.
    split; [intros _; reflexivity|].
    split; [intros H; contradiction|].
    split; [intros H; contradiction|].
    split; [intros H; contradiction|].
    split; [|exact Ec]. split.
    + intros [e He]. discriminate.
    + intros [H _]. contradiction.
Qed.

End CacheEstimate.

(** ** Partials *)

Section Tracker.

Import Partials.

Variable estimated_size_of : Z -> Z -> string -> option Z.

(** [PartialsCache.add] always changes the cache: the counter of the
    interval of all launchers moves. *)
Lemma cache_add_changes k t d now_own now_all c :
  fst (PartialsCache.add estimated_size_of k t d now_own now_all c) <> c.
Proof.
  rewrite add_eq. simpl. intros E.
  apply (f_equal (fun x => PartialsInterval.additions (PartialsCache.all x))) in E.
  simpl in E. rewrite (proj1 (add_additions _ _ _ _ _)) in E. lia.
Qed.

(** C9: [add_partial] first records the partial in the store, with its
    error if it has one; without an error the cache becomes what
    [PartialsCache.add] makes of it, which differs from what it was; with
    an error the cache is unchanged and nothing else is done. *)
Theorem C9_add_partial_stores_then_forwards :
  forall (launcher_id : list byte) (timestamp difficulty : Z)
         (error : option string) (now_own now_all : Z) (p : t),
    let r := add_partial estimated_size_of launcher_id timestamp difficulty
               error now_own now_all p in
    let record := add_partial_call launcher_id timestamp difficulty error in
    (exists more, store (fst r) = store p ++ record :: more)
    /\ (error = None ->
        cache (fst r)
        = fst (PartialsCache.add estimated_size_of (hex launcher_id) timestamp
                 difficulty now_own now_all (cache p))
        /\ cache (fst r) <> cache p)
    /\ (error <> None ->
        cache (fst r) = cache p
        /\ store (fst r) = store p ++ [record]
        /\ snd r = None).
Proof.
  intros launcher_id timestamp difficulty error now_own now_all p r record.
  unfold r, record, add_partial.
  destruct error as [msg|].
  - simpl. split; [now exists []|]. split; [discriminate|].
    intros _. repeat split.
  - pose proof (cache_add_changes (hex launcher_id) timestamp difficulty
                  now_own now_all (cache p)) as Hne.
    destruct (PartialsCache.add estimated_size_of (hex launcher_id) timestamp
                difficulty now_own now_all (cache p)) as [c o] eqn:A.
    simpl in Hne. split; [|split].
    + destruct o; simpl.
      * now exists [].
      * exists [call]. now rewrite <- app_assoc.
      * now exists [].
    + intros _. destruct o; simpl; split; auto.
    + intros H. now contradiction H.
Qed.

End Tracker.

Section Reads.

Import Partials.

Lemma uint64_fits v : fits_uint64 v -> uint64 v = Some v.
Proof.
  unfold fits_uint64, uint64. intros [H1 H2].
  destruct (Z.leb_spec 0 v); destruct (Z.ltb_spec v (2 ^ 64)); simpl;
    try reflexivity; lia.
Qed.

Lemma uint64_pairs_fit (l : list partial) :
  Forall (fun x => fits_uint64 (fst x) /\ fits_uint64 (snd x)) l ->
  uint64_pairs l = Some l.
Proof.
  induction 1 as [|[a b] l [Ha Hb] _ IH]; simpl in *; [reflexivity|].
  now rewrite (uint64_fits a Ha), (uint64_fits b Hb), IH.
Qed.

(** For a positive number, the slice [l[-n:]] reversed is the first [n]
    elements of the reversed list: the newest [n] partials, newest first. *)
Lemma recent_slice {A : Type} (n : Z) (l : list A) :
  0 < n -> rev (slice_from (- n) l) = firstn (Z.to_nat n) (rev l).
Proof.
  intros Hn. unfold slice_from. rewrite firstn_rev.
  destruct (Z.ltb_spec (- n) 0); [|lia].
  do 2 f_equal. lia.
Qed.

(** [l[-0:]] is [l[0:]], the whole list. *)
Lemma slice_from_zero {A : Type} (l : list A) : slice_from 0 l = l.
Proof.
  unfold slice_from. simpl.
  replace (Z.min 0 (Z.of_nat (List.length l))) with 0 by lia. reflexivity.
Qed.

(** X13: with a positive number of partials and values that fit in 64
    bits, [get_recent_partials] returns the newest partials, newest first. *)
Lemma get_recent_partials_positive launcher_id n p :
  0 < n ->
  let held := PartialsInterval.partials
                (PartialsCache.current (hex launcher_id) (cache p)) in
  Forall (fun x => fits_uint64 (fst x) /\ fits_uint64 (snd x)) held ->
  snd (get_recent_partials launcher_id n p)
  = inl (firstn (Z.to_nat n) (rev held)).
Proof.
  intros Hn held Hfit.
  assert (E : snd (get_recent_partials launcher_id n p)
              = match uint64_pairs (rev (slice_from (- n) held)) with
                | Some l => inl l
                | None => inr ValueError
                end).
  { unfold get_recent_partials, PartialsCache.getitem, held,
      PartialsCache.current.
    destruct (Dict.get (hex launcher_id) (PartialsCache.items (cache p)));
      reflexivity. }
  rewrite E, recent_slice by exact Hn.
  rewrite uint64_pairs_fit; [reflexivity|].
  assert (Hr : Forall (fun x => fits_uint64 (fst x) /\ fits_uint64 (snd x))
                 (firstn (Z.to_nat n) (rev held) ++ skipn (Z.to_nat n) (rev held))).
  { rewrite firstn_skipn. now apply Forall_rev. }
  apply Forall_app in Hr. tauto.
Qed.

(** C7, at the number 0: the slice [partials[-0:]] is the whole list, so
    [get_recent_partials] returns every partial held instead of none; on
    the partials (1,5), (2,7), (3,9) the number 2 gives the two newest and
    the number 0 gives all three. *)
Theorem C7_zero_count_returns_every_partial :
  (forall launcher_id p,
      snd (get_recent_partials launcher_id 0 p)
      = match
          uint64_pairs
            (rev (PartialsInterval.partials
                    (PartialsCache.current (hex launcher_id) (cache p))))
        with
        | Some l => inl l
        | None => inr ValueError
        end)
  /\ snd (get_recent_partials launcher_0a 2 three_partials)
     = inl [(3, 9); (2, 7)]
  /\ snd (get_recent_partials launcher_0a 0 three_partials)
     = inl [(3, 9); (2, 7); (1, 5)].
Proof.
  split; [|split; reflexivity].
  intros launcher_id p.
  unfold get_recent_partials, PartialsCache.getitem, PartialsCache.current.
  destruct (Dict.get (hex launcher_id) (PartialsCache.items (cache p)));
    cbn [snd]; change (- 0) with 0; now rewrite slice_from_zero.
Qed.

End Reads.

(** ** The payout pass *)

Section Payout.

Import Partials.

Lemma payable_cons launcher_id_and_ph k pi items :
  payable launcher_id_and_ph ((k, pi) :: items)
  = match Dict.get k launcher_id_and_ph with
    | Some ph =>
        if PartialsInterval.points pi =? 0 then []
        else [(PartialsInterval.points pi, ph)]
    | None => []
    end ++ payable launcher_id_and_ph items.
Proof.
  reflexivity.
Qed.

Lemma without_instructions_cons launcher_id_and_ph k pi items :
  without_instructions launcher_id_and_ph ((k, pi) :: items)
  = match Dict.get k launcher_id_and_ph with
    | Some _ => []
    | None =>
        if PartialsInterval.points pi =? 0 then []
        else [(k, PartialsInterval.points pi)]
    end ++ without_instructions launcher_id_and_ph items.
Proof.
  reflexivity.
Qed.

(** The loop, when the points to emit fit in 64 bits. *)
Lemma collect_eq launcher_id_and_ph items :
  forall acc logged,
    Forall (fun pair => fits_uint64 (fst pair))
      (payable launcher_id_and_ph items) ->
    collect launcher_id_and_ph items acc logged
    = Some (acc ++ payable launcher_id_and_ph items,
            logged ++ without_instructions launcher_id_and_ph items).
Proof.
  induction items as [|[k pi] items IH]; intros acc logged Hfit.
  - simpl. now rewrite !app_nil_r.
  - rewrite payable_cons in Hfit. apply Forall_app in Hfit.
    destruct Hfit as [Hpi Hfit].
    rewrite payable_cons, without_instructions_cons. simpl collect.
    destruct (PartialsInterval.points pi =? 0) eqn:E0.
    + rewrite IH by exact Hfit.
      destruct (Dict.get k launcher_id_and_ph); reflexivity.
    + destruct (Dict.get k launcher_id_and_ph) as [ph|].
      * apply Forall_cons_iff in Hpi. destruct Hpi as [Hpi _]. simpl in Hpi.
        rewrite (uint64_fits _ Hpi), IH by exact Hfit.
        now rewrite <- app_assoc.
      * rewrite IH by exact Hfit. now rewrite <- app_assoc.
Qed.

Lemma uint64_out_of_range v : ~ fits_uint64 v -> uint64 v = None.
Proof.
  unfold fits_uint64, uint64. intros H.
  destruct (Z.leb_spec 0 v); destruct (Z.ltb_spec v (2 ^ 64)); simpl;
    try reflexivity; lia.
Qed.

(** The loop, when some points to emit do not fit: [uint64] raises. *)
Lemma collect_raises launcher_id_and_ph items :
  forall acc logged,
    Exists (fun pair => ~ fits_uint64 (fst pair))
      (payable launcher_id_and_ph items) ->
    collect launcher_id_and_ph items acc logged = None.
Proof.
  induction items as [|[k pi] items IH]; intros acc logged Hbad.
  - inversion Hbad.
  - rewrite payable_cons in Hbad. apply Exists_app in Hbad. simpl collect.
    destruct (PartialsInterval.points pi =? 0) eqn:E0.
    + destruct Hbad as [Hbad|Hbad]; [|now apply IH].
      destruct (Dict.get k launcher_id_and_ph); inversion Hbad.
    + destruct (Dict.get k launcher_id_and_ph) as [ph|].
      * destruct (uint64 (PartialsInterval.points pi)) as [v|] eqn:U;
          [|reflexivity].
        destruct Hbad as [Hbad|Hbad]; [|now apply IH].
        apply Exists_cons in Hbad. destruct Hbad as [Hbad|Hbad];
          [|inversion Hbad].
        simpl in Hbad. rewrite (uint64_out_of_range _ Hbad) in U.
        discriminate.
      * destruct Hbad as [Hbad|Hbad]; [inversion Hbad | now apply IH].
Qed.

Lemma in_payable launcher_id_and_ph items points ph :
  In (points, ph) (payable launcher_id_and_ph items) <->
  exists k pi,
    In (k, pi) items /\ PartialsInterval.points pi <> 0
    /\ Dict.get k launcher_id_and_ph = Some ph
    /\ points = PartialsInterval.points pi.
Proof.
  unfold payable. rewrite in_flat_map. split.
  - intros [[k pi] [Hin H]]. simpl in H.
    destruct (Dict.get k launcher_id_and_ph) as [ph'|] eqn:G; [|contradiction].
    destruct (Z.eqb_spec (PartialsInterval.points pi) 0); [contradiction|].
    destruct H as [H|[]]. injection H as <- <-.
    exists k, pi. auto.
  - intros (k & pi & Hin & Hne & G & ->). exists (k, pi). split; [exact Hin|].
    simpl. rewrite G.
    destruct (Z.eqb_spec (PartialsInterval.points pi) 0); [contradiction|].
    now left.
Qed.

Lemma in_without_instructions launcher_id_and_ph items k points :
  In (k, points) (without_instructions launcher_id_and_ph items) <->
  exists pi,
    In (k, pi) items /\ PartialsInterval.points pi <> 0
    /\ Dict.get k launcher_id_and_ph = None
    /\ points = PartialsInterval.points pi.
Proof.
  unfold without_instructions. rewrite in_flat_map. split.
  - intros [[k' pi] [Hin H]]. simpl in H.
    destruct (Dict.get k' launcher_id_and_ph) as [ph'|] eqn:G; [contradiction|].
    destruct (Z.eqb_spec (PartialsInterval.points pi) 0); [contradiction|].
    destruct H as [H|[]]. injection H as <- <-.
    exists pi. auto.
  - intros (pi & Hin & Hne & G & ->). exists (k, pi). split; [exact Hin|].
    simpl. rewrite G.
    destruct (Z.eqb_spec (PartialsInterval.points pi) 0); [contradiction|].
    now left.
Qed.

(** C8: when the points to emit fit in 64 bits, the payout pass
    returns, in the order of the cache, one pair (points, payout
    instructions) for each launcher with points and instructions, and no
    other pair; a launcher without points gives nothing, a launcher with
    points and no instructions is logged and the pass goes on; the total
    returned is the points of all launchers. *)
Theorem C8_payout_pass_emits_payable_launchers :
  forall (launcher_id_and_ph : Dict.t string) (p : t),
    let items := PartialsCache.items (cache p) in
    Forall (fun pair => fits_uint64 (fst pair))
      (payable launcher_id_and_ph items) ->
    get_farmer_points_and_payout_instructions launcher_id_and_ph p
    = inl (mk_payout
             (payable launcher_id_and_ph items)
             (PartialsInterval.points (PartialsCache.all (cache p)))
             (without_instructions launcher_id_and_ph items))
    /\ (forall points ph,
           In (points, ph) (payable launcher_id_and_ph items) <->
           exists k pi,
             In (k, pi) items /\ PartialsInterval.points pi <> 0
             /\ Dict.get k launcher_id_and_ph = Some ph
             /\ points = PartialsInterval.points pi)
    /\ (forall k points,
           In (k, points) (without_instructions launcher_id_and_ph items) <->
           exists pi,
             In (k, pi) items /\ PartialsInterval.points pi <> 0
             /\ Dict.get k launcher_id_and_ph = None
             /\ points = PartialsInterval.points pi).
Proof.
  intros launcher_id_and_ph p items Hfit. split; [|split].
  - unfold get_farmer_points_and_payout_instructions. fold items.
    now rewrite (collect_eq launcher_id_and_ph items [] [] Hfit).
  - intros points ph. apply in_payable.
  - intros k points. apply in_without_instructions.
Qed.

(** X14: when the points of a launcher that is to be paid do not fit in
    64 bits, [uint64] raises and the pass returns nothing. *)
Lemma payout_pass_raises_out_of_range launcher_id_and_ph p :
  Exists (fun pair => ~ fits_uint64 (fst pair))
    (payable launcher_id_and_ph (PartialsCache.items (cache p))) ->
  get_farmer_points_and_payout_instructions launcher_id_and_ph p
  = inr ValueError.
Proof.
  intros H. unfold get_farmer_points_and_payout_instructions.
  now rewrite (collect_raises launcher_id_and_ph _ [] [] H).
Qed.

End Payout.

(** ** Concrete runs *)

Ltac by_order :=
  unfold chronological, nondecreasing; simpl;
  repeat first
    [ apply SSorted_nil | apply SSorted_cons
    | apply Forall_nil | apply Forall_cons; [lia|] ].

(** C1 on the scenario: the three partials at 0, 50 and 90 are held, and a
    partial added at time 150 drops the one at 0 and leaves 20 + 5 + 1. *)
Lemma C1_scenario_at_150 :
  let s := PartialsInterval.run scenario (PartialsInterval.init 100) in
  let s' := fst (PartialsInterval.add 150 150 1 true s) in
  PartialsInterval.partials s'
  = filter (not_before (150 - 100)) (PartialsInterval.partials s ++ [(150, 1)])
  /\ PartialsInterval.points s'
     = points_since (150 - 100) (PartialsInterval.partials s')
  /\ PartialsInterval.points s'
     = points_since (150 - 100) (PartialsInterval.partials s ++ [(150, 1)]).
Proof.
  apply (C1_points_after_eviction 100 scenario 150 150 1). by_order.
Defined.

(** C10 on an interval holding (0,10): a partial stamped 5 that is added
    at time 1000 leaves the interval empty. *)
Lemma C10_stale_partial_empties_interval :
  let s := PartialsInterval.mk [(0, 10)] 10 1 100 in
  let s' := fst (PartialsInterval.add 1000 5 3 true s) in
  PartialsInterval.partials s' = []
  /\ PartialsInterval.points s' = 0
  /\ (Forall (fun x => 0 <= snd x) (PartialsInterval.partials s) ->
      PartialsInterval.points s' <= PartialsInterval.points s).
Proof.
  apply (C10_add_can_evict_its_own_partial
           (PartialsInterval.mk [(0, 10)] 10 1 100) 1000 5 3).
  - reflexivity.
  - by_order.
  - simpl. lia.
Defined.

(** C2, on the failing run: after launcher ["a"] at time 0 and launcher
    ["b"] at time 200, with 100 seconds kept, the interval of all launchers
    has dropped the partial of ["a"], whose own interval still holds it,
    5 points against 10 + 5; and the payout pass on the same two partials
    pays 10 and 5 points against a total of 5. *)
Theorem C2_idle_launcher_keeps_expired_points :
  let c := PartialsCache.run exact_estimated_size two_launchers cache_100 in
  PartialsInterval.partials (PartialsCache.all c) = [(200, 5)]
  /\ PartialsInterval.partials (PartialsCache.current "a"%string c) = [(0, 10)]
  /\ PartialsInterval.points (PartialsCache.all c) = 5
  /\ PartialsCache.sum_points (PartialsCache.items c) = 15
  /\ Partials.get_farmer_points_and_payout_instructions instructions_a_b
       idle_launcher
     = inl (Partials.mk_payout [(10, "xch_a"%string); (5, "xch_b"%string)] 5
              []).
Proof.
  repeat split.
Qed.

(** X16 on the same run: within the window of the last call the two sums
    agree. *)
Lemma two_launchers_within_window :
  let c := PartialsCache.run exact_estimated_size two_launchers cache_100 in
  PartialsInterval.points (PartialsCache.all c)
  = PartialsCache.sum_points_since (200 - 100) (PartialsCache.items c)
  /\ (Forall (fun kv => Forall (fun x => 200 - 100 <= fst x)
                          (PartialsInterval.partials (snd kv)))
        (PartialsCache.items c) ->
      PartialsInterval.points (PartialsCache.all c)
      = PartialsCache.sum_points (PartialsCache.items c)).
Proof.
  apply (all_points_is_sum_within_window exact_estimated_size 100 100
           "mainnet"%string
           [PartialsCache.mk_call "a"%string 0 10 0 0]
           (PartialsCache.mk_call "b"%string 200 5 200 200)); by_order.
Defined.

(** C5, the claim as stated fails: of five partials of one launcher, the
    first is followed by the update of the estimate and the fifth is not;
    and the first partial of a launcher, expired when it is added, gets the
    number 0, a multiple of 5, and no update reaches the store. *)
Lemma C5_first_partial_updates_fifth_does_not :
  PartialsCache.outcomes exact_estimated_size five_partials cache_100
  = [PartialsCache.Updated
       (update_estimated_size_and_pplns_call "a"%string 91911764705882 10
          (10, 10));
     PartialsCache.NotDue; PartialsCache.NotDue; PartialsCache.NotDue;
     PartialsCache.NotDue]
  /\ snd (PartialsCache.locked_adds "a"%string 0 10 1000 1000 cache_100) mod 5
     = 0
  /\ snd (PartialsCache.add exact_estimated_size "a"%string 0 10 1000 1000
            cache_100)
     = PartialsCache.Raised InvalidOperation.
Proof.
  repeat split.
Qed.

(** C6, the claim as stated fails: the first partial of a launcher, already
    expired when it is added, leaves all points at zero and the division
    of the share raises. *)
Lemma C6_zero_total_raises :
  PartialsCache.add exact_estimated_size "a"%string 0 10 1000 1000 cache_100
  = (PartialsCache.mk
       [("a"%string, PartialsInterval.mk [] 0 1 100)]
       (PartialsInterval.mk [] 0 1 100) 100 100 "mainnet"%string,
     PartialsCache.Raised InvalidOperation).
Proof.
  reflexivity.
Qed.

(** C8 on three launchers: the one with points and instructions is paid,
    the one without points is left out, the one without instructions is
    logged. *)
Lemma C8_three_launchers :
  Partials.get_farmer_points_and_payout_instructions instructions_a_b
    three_launchers
  = inl (Partials.mk_payout [(5, "xch_a"%string)] 12 [("0c"%string, 7)]).
Proof.
  refine (proj1 (C8_payout_pass_emits_payable_launchers instructions_a_b
                   three_launchers _)).
  constructor; [unfold fits_uint64; simpl; lia | constructor].
Defined.

(** * Further properties of the code *)

(** ** The removal loop on lists in any order *)

Section IntervalMore.

Import PartialsInterval.

(** X1: the removal loop stops at the first partial that is not expired:
    it removes the expired partials before it, lowers the total by their
    difficulties, and keeps that partial and everything behind it, expired
    or not. *)
Theorem evict_stops_at_first_unexpired :
  forall (drop_time : Z) (pre : list partial) (x : partial)
         (rest : list partial) (p : Z),
    Forall (fun y => fst y < drop_time) pre ->
    drop_time <= fst x ->
    evict drop_time (pre ++ x :: rest) p
    = (x :: rest, p - sum_difficulty pre).
Proof.
  intros drop_time pre x rest p Hpre Hx. revert p.
  induction Hpre as [|[t d] pre Ht _ IH]; intros p; simpl.
  - destruct x as [t d]. simpl in Hx.
    destruct (Z.ltb_spec t drop_time); [lia|]. f_equal. ring.
  - simpl in Ht. destruct (Z.ltb_spec t drop_time); [|lia].
    rewrite IH. f_equal. ring.
Qed.

Lemma evict_points_shift drop_time l p d :
  evict drop_time l (p + d)
  = (fst (evict drop_time l p), snd (evict drop_time l p) + d).
Proof.
  revert p. induction l as [|[t w] l IH]; intros p; simpl.
  - reflexivity.
  - destruct (t <? drop_time); [|reflexivity].
    replace (p + d - w) with (p - w + d) by ring. apply IH.
Qed.

Lemma evict_snoc_unexpired drop_time l x p :
  drop_time <= fst x ->
  evict drop_time (l ++ [x]) p
  = (fst (evict drop_time l p) ++ [x], snd (evict drop_time l p)).
Proof.
  intros Hx. revert p. induction l as [|[t w] l IH]; intros p; simpl.
  - destruct x as [t d]. simpl in Hx.
    destruct (Z.ltb_spec t drop_time); [lia | reflexivity].
  - destruct (t <? drop_time); [apply IH | reflexivity].
Qed.

(** X2: a partial that is not expired when it is added is kept, whatever
    the order of the list: [add] with removal is the removal loop on the
    list held, followed by the new partial at the end, and the total is
    the one the loop leaves plus the new difficulty. *)
Theorem add_keeps_unexpired_partial :
  forall (s : t) (now timestamp difficulty : Z),
    now - keep_interval s <= timestamp ->
    let kept := evict (now - keep_interval s) (partials s) (points s) in
    let s' := fst (add now timestamp difficulty true s) in
    partials s' = fst kept ++ [(timestamp, difficulty)]
    /\ points s' = snd kept + difficulty.
Proof.
  intros s now timestamp difficulty Hfresh kept s'.
  unfold s'. rewrite add_partials, add_points.
  rewrite evict_snoc_unexpired by exact Hfresh.
  rewrite evict_points_shift. split; reflexivity.
Qed.

End IntervalMore.

(** ** Keys of the cache *)

Section HexKeys.

Lemma unhex_hex_byte (x : byte) :
  Byte.of_N
    (16 * hex_value (hex_digit (N.div (Byte.to_N x) 16))
     + hex_value (hex_digit (N.modulo (Byte.to_N x) 16)))
  = Some x.
Proof.
  destruct x; reflexivity.
Qed.

Lemma unhex_hex (b : list byte) : unhex (hex b) = Some b.
Proof.
  induction b as [|x b IH]; [reflexivity|].
  cbn [hex unhex]. now rewrite unhex_hex_byte, IH.
Qed.

(** X3: the hexadecimal key determines the launcher: two launcher ids with
    the same key are the same bytes, and the key has two characters per
    byte. *)
Theorem hex_key_determines_launcher :
  forall (a b : list byte),
    (hex a = hex b <-> a = b)
    /\ String.length (hex a) = (2 * List.length a)%nat.
Proof.
  intros a b. split; [split|].
  - intros H. apply (f_equal unhex) in H. rewrite !unhex_hex in H.
    now injection H.
  - now intros ->.
  - induction a as [|x a IH]; simpl; [reflexivity|]. rewrite IH. lia.
Qed.

End HexKeys.

(** ** Keys and lookups *)

Section DictMore.

Context {V : Type}.
Implicit Types (d : Dict.t V) (k : string) (v : V).

Lemma get_none_iff k d : Dict.get k d = None <-> ~ In k (map fst d).
Proof.
  induction d as [|[k' v'] d IH]; simpl.
  - tauto.
  - destruct (String.eqb_spec k k') as [->|Hne].
    + split; [discriminate | intros H; exfalso; apply H; now left].
    + rewrite IH. split.
      * intros H [E|E]; [now apply Hne | now apply H].
      * intros H E. apply H. now right.
Qed.

Lemma set_absent k v d : Dict.get k d = None -> Dict.set k v d = d ++ [(k, v)].
Proof.
  induction d as [|[k' v'] d IH]; simpl; [reflexivity|].
  destruct (String.eqb k k'); [discriminate|].
  intros H. now rewrite IH.
Qed.

Lemma set_present_keys k v d :
  Dict.get k d <> None -> map fst (Dict.set k v d) = map fst d.
Proof.
  induction d as [|[k' v'] d IH]; simpl; [congruence|].
  destruct (String.eqb k k'); [reflexivity|].
  intros H. simpl. now rewrite IH.
Qed.

(** An assignment keeps the keys in their order and adds a new key at the
    end. *)
Lemma keys_set k v d :
  map fst (Dict.set k v d)
  = if Dict.contains k d then map fst d else map fst d ++ [k].
Proof.
  unfold Dict.contains. destruct (Dict.get k d) as [old|] eqn:G.
  - apply set_present_keys. congruence.
  - rewrite set_absent by exact G. now rewrite map_app.
Qed.

Lemma NoDup_set k v d :
  NoDup (map fst d) -> NoDup (map fst (Dict.set k v d)).
Proof.
  intros H. rewrite keys_set. unfold Dict.contains.
  destruct (Dict.get k d) as [old|] eqn:G; [exact H|].
  apply get_none_iff in G.
  apply NoDup_rev in H. rewrite <- (rev_involutive (map fst d ++ [k])).
  apply NoDup_rev. rewrite rev_app_distr. simpl.
  constructor; [|exact H]. now rewrite <- in_rev.
Qed.

Lemma sum_at_least (f : V -> Z) k v d :
  Forall (fun kv => 0 <= f (snd kv)) d -> Dict.get k d = Some v ->
  f v <= Dict.sum f d.
Proof.
  induction 1 as [|[k' v'] d Hx Hd IH]; simpl; [discriminate|].
  assert (0 <= Dict.sum f d).
  { clear -Hd. induction Hd as [|[k0 v0] d H0 _ IH0]; simpl in *; lia. }
  destruct (String.eqb k k').
  - intros E. injection E as <-. simpl in Hx. lia.
  - intros E. specialize (IH E). simpl in Hx. lia.
Qed.

End DictMore.

(** ** The lazy default and the effect of one call on the dictionary *)

Section CacheMore.

Import PartialsCache.

Variable estimated_size_of : Z -> Z -> string -> option Z.

(** X4: reading [self[launcher_id]] for an absent key stores a new empty
    interval, with the interval of the cache, at the end of the
    dictionary and returns it; a present key is returned with the cache
    unchanged; in both cases a second read returns the same interval and
    changes nothing more, and the interval of all launchers is not
    touched. *)
Theorem getitem_stores_the_default_once :
  forall (launcher_id : string) (c : t),
    let r := getitem launcher_id c in
    getitem launcher_id (fst r) = r
    /\ Dict.get launcher_id (items (fst r)) = Some (snd r)
    /\ (Dict.get launcher_id (items c) = None ->
        snd r = PartialsInterval.init (keep_interval c)
        /\ items (fst r) = items c ++ [(launcher_id, snd r)])
    /\ (Dict.get launcher_id (items c) <> None -> fst r = c)
    /\ all (fst r) = all c.
Proof.
  intros launcher_id c r. unfold r, getitem.
  destruct (Dict.get launcher_id (items c)) as [pi|] eqn:G; simpl.
  - rewrite G. split; [reflexivity|]. split; [reflexivity|].
    split; [discriminate|]. split; reflexivity.
  - rewrite get_set_same. split; [reflexivity|]. split; [reflexivity|]. split.
    + intros _. split; [reflexivity | now apply set_absent].
    + split; [intros H; now contradiction H | reflexivity].
Qed.

(** X5: after [add] for a launcher, a lookup of that launcher finds its
    interval with the partial added, a lookup of any other key finds what
    it found before, and the keys are those of before in the same order,
    with the launcher at the end if it is new. *)
Theorem add_updates_one_launcher :
  forall (launcher_id other : string)
         (timestamp difficulty now_own now_all : Z) (c : t),
    let c' := fst (add estimated_size_of launcher_id timestamp difficulty
                     now_own now_all c) in
    Dict.get other (items c')
    = (if String.eqb other launcher_id
       then Some (fst (PartialsInterval.add now_own timestamp difficulty true
                         (current launcher_id c)))
       else Dict.get other (items c))
    /\ map fst (items c')
       = (if Dict.contains launcher_id (items c)
          then map fst (items c)
          else map fst (items c) ++ [launcher_id]).
Proof.
  intros launcher_id other timestamp difficulty now_own now_all c c'.
  unfold c'. rewrite add_eq. simpl. split.
  - destruct (String.eqb_spec other launcher_id) as [->|Hne].
    + apply get_set_same.
    + apply get_set_other. now apply String.eqb_neq.
  - apply keys_set.
Qed.

End CacheMore.

(** ** What every method keeps true of the cache *)

Section TrackerInvariant.

Import PartialsCache.

Variable estimated_size_of : Z -> Z -> string -> option Z.

Lemma current_well_formed keep k c :
  well_formed keep c ->
  PartialsInterval.consistent (current k c)
  /\ PartialsInterval.keep_interval (current k c) = keep.
Proof.
  intros (_ & Hk & (_ & Hitems) & _). unfold current.
  destruct (Dict.get k (items c)) as [pi|] eqn:G.
  - exact (Forall_get
             (fun pi => PartialsInterval.consistent pi
                        /\ PartialsInterval.keep_interval pi = keep)
             k pi (items c) Hitems G).
  - rewrite Hk. split; reflexivity.
Qed.

Lemma additions_of_current k c :
  match Dict.get k (items c) with
  | Some old => PartialsInterval.additions old
  | None => 0
  end = PartialsInterval.additions (current k c).
Proof.
  unfold current. destruct (Dict.get k (items c)); reflexivity.
Qed.

(** Adding one partial to the interval of a launcher and to the interval
    of all launchers, with or without removal. *)
Lemma well_formed_deposit keep k now_own now_all t d remove c :
  well_formed keep c ->
  well_formed keep
    (mk (Dict.set k (fst (PartialsInterval.add now_own t d remove (current k c)))
           (items c))
        (fst (PartialsInterval.add now_all t d remove (all c)))
        (keep_interval c) (time_target c) (selected_network c)).
Proof.
  intros W. destruct (current_well_formed keep k c W) as [Hc1 Hc2].
  destruct W as (Hnd & Hk & ((Ha1 & Ha2) & Hitems) & Hadd).
  unfold well_formed, every_interval. simpl. repeat split.
  - now apply NoDup_set.
  - exact Hk.
  - now apply add_consistent.
  - now rewrite add_keep_interval.
  - apply (Forall_set
             (fun pi => PartialsInterval.consistent pi
                        /\ PartialsInterval.keep_interval pi = keep));
      [exact Hitems|]. split.
    + now apply add_consistent.
    + now rewrite add_keep_interval.
  - unfold sum_additions. rewrite sum_set, additions_of_current.
    rewrite !(proj1 (add_additions _ _ _ _ _)).
    fold (sum_additions (items c)). lia.
Qed.

Lemma well_formed_getitem keep k c :
  well_formed keep c -> well_formed keep (fst (getitem k c)).
Proof.
  intros W. unfold getitem.
  destruct (Dict.get k (items c)) as [pi|] eqn:G; [exact W|].
  destruct W as (Hnd & Hk & (Ha & Hitems) & Hadd).
  unfold well_formed, every_interval. simpl. repeat split; try tauto.
  - now apply NoDup_set.
  - apply (Forall_set
             (fun pi => PartialsInterval.consistent pi
                        /\ PartialsInterval.keep_interval pi = keep));
      [exact Hitems|]. rewrite Hk. split; reflexivity.
  - unfold sum_additions. rewrite sum_set, G. simpl.
    fold (sum_additions (items c)). lia.
Qed.

Lemma replay_cons now lid t d rows c :
  Partials.replay now ((lid, t, d) :: rows) c
  = Partials.replay now rows
      (mk (Dict.set lid
             (fst (PartialsInterval.add now t d false (current lid c)))
             (items c))
          (fst (PartialsInterval.add now t d false (all c)))
          (keep_interval c) (time_target c) (selected_network c)).
Proof.
  cbn [Partials.replay]. unfold getitem, current.
  destruct (Dict.get lid (items c)); simpl; [reflexivity|].
  now rewrite set_set.
Qed.

Lemma well_formed_replay keep now rows :
  forall c, well_formed keep c -> well_formed keep (Partials.replay now rows c).
Proof.
  induction rows as [|[[lid t] d] rows IH]; intros c W; [exact W|].
  rewrite replay_cons. apply IH. now apply well_formed_deposit.
Qed.

Lemma add_partial_cache launcher_id t d error now_own now_all p :
  Partials.cache
    (fst (Partials.add_partial estimated_size_of launcher_id t d error
            now_own now_all p))
  = match error with
    | None => fst (add estimated_size_of (hex launcher_id) t d now_own now_all
                     (Partials.cache p))
    | Some _ => Partials.cache p
    end.
Proof.
  unfold Partials.add_partial. destruct error; [reflexivity|].
  destruct (add estimated_size_of (hex launcher_id) t d now_own now_all
              (Partials.cache p)) as [c o].
  destruct o; reflexivity.
Qed.

Lemma well_formed_step keep o p :
  well_formed keep (Partials.cache p) ->
  well_formed keep (Partials.cache (step estimated_size_of o p)).
Proof.
  intros W. destruct o as [now rows|lid t d error n1 n2|lid n|ph]; simpl.
  - now apply well_formed_replay.
  - rewrite add_partial_cache. destruct error; [exact W|].
    rewrite add_eq. simpl. now apply well_formed_deposit.
  - unfold Partials.get_recent_partials.
    pose proof (well_formed_getitem keep (hex lid) (Partials.cache p) W) as G.
    destruct (getitem (hex lid) (Partials.cache p)) as [c pi]. exact G.
  - exact W.
Qed.

Lemma replay_config now rows :
  forall c,
    time_target (Partials.replay now rows c) = time_target c
    /\ selected_network (Partials.replay now rows c) = selected_network c.
Proof.
  induction rows as [|[[lid t] d] rows IH]; intros c; [split; reflexivity|].
  rewrite replay_cons.
  destruct (IH (mk (Dict.set lid
                      (fst (PartialsInterval.add now t d false (current lid c)))
                      (items c))
                   (fst (PartialsInterval.add now t d false (all c)))
                   (keep_interval c) (time_target c) (selected_network c)))
    as [H1 H2].
  rewrite H1, H2. split; reflexivity.
Qed.

Lemma step_config o p :
  Partials.keep_interval (step estimated_size_of o p) = Partials.keep_interval p
  /\ time_target (Partials.cache (step estimated_size_of o p))
     = time_target (Partials.cache p)
  /\ selected_network (Partials.cache (step estimated_size_of o p))
     = selected_network (Partials.cache p).
Proof.
  destruct o as [now rows|lid t d error n1 n2|lid n|ph]; simpl.
  - split; [reflexivity|]. apply replay_config.
  - split.
    + unfold Partials.add_partial. destruct error; [reflexivity|].
      destruct (add _ _ _ _ _ _ _) as [c o]. destruct o; reflexivity.
    + rewrite add_partial_cache. destruct error; [split; reflexivity|].
      rewrite add_eq. split; reflexivity.
  - unfold Partials.get_recent_partials, getitem.
    destruct (Dict.get (hex lid) (items (Partials.cache p)));
      repeat split; reflexivity.
  - repeat split; reflexivity.
Qed.

(** X6: after any sequence of calls of the methods of [Partials] on a new
    tracker (loads, partials with and without error, reads, payout
    passes, also calls that raised), the keys of the cache are distinct,
    every interval keeps the configured interval (a day when none is
    configured), the points of every interval, the one of all launchers
    included, are the sum of the difficulties it holds, the counter of the
    interval of all launchers is the sum of the counters of the launchers,
    and the configuration is unchanged. *)
Theorem tracker_keeps_cache_well_formed :
  forall (pplns_interval : option Z) (time_target : Z) (network : string)
         (ops : list op),
    let p := run_ops estimated_size_of ops
               (Partials.init pplns_interval time_target network) in
    let keep := match pplns_interval with Some k => k | None => 86400 end in
    well_formed keep (Partials.cache p)
    /\ Partials.keep_interval p = keep
    /\ PartialsCache.time_target (Partials.cache p) = time_target
    /\ selected_network (Partials.cache p) = network.
Proof.
  intros pplns_interval time_target network ops p keep.
  assert (G : forall ops q,
             well_formed keep (Partials.cache q) ->
             well_formed keep (Partials.cache (run_ops estimated_size_of ops q))
             /\ Partials.keep_interval (run_ops estimated_size_of ops q)
                = Partials.keep_interval q
             /\ PartialsCache.time_target
                  (Partials.cache (run_ops estimated_size_of ops q))
                = PartialsCache.time_target (Partials.cache q)
             /\ selected_network
                  (Partials.cache (run_ops estimated_size_of ops q))
                = selected_network (Partials.cache q)).
  { clear. induction ops as [|o ops IH]; intros q W; simpl.
    - split; [exact W | repeat split].
    - destruct (IH (step estimated_size_of o q)
                  (well_formed_step keep o q W)) as (H1 & H2 & H3 & H4).
      destruct (step_config o q) as (E2 & E3 & E4).
      rewrite H2, H3, H4, E2, E3, E4. split; [exact H1 | repeat split]. }
  apply G. unfold well_formed, every_interval. simpl.
  repeat split; constructor.
Qed.

End TrackerInvariant.

(** ** The store over a sequence of calls *)

Section StoreRecords.

Variable estimated_size_of : Z -> Z -> string -> option Z.

Lemma updated_call_is_an_update k t d now_own now_all c call :
  snd (PartialsCache.add estimated_size_of k t d now_own now_all c)
  = PartialsCache.Updated call ->
  is_add_partial_call call = false.
Proof.
  rewrite add_eq. simpl.
  destruct (_ mod 5 =? 0); [|discriminate].
  unfold PartialsCache.estimate_outcome.
  destruct (estimated_size_of _ _ _); [|discriminate].
  destruct (decimal_div _ _); [|discriminate].
  intros H. injection H as <-. reflexivity.
Qed.

Lemma step_store o p :
  exists more,
    Partials.store (step estimated_size_of o p) = Partials.store p ++ more
    /\ filter is_add_partial_call more = partials_recorded [o].
Proof.
  destruct o as [now rows|lid t d error n1 n2|lid n|ph]; simpl.
  - exists []. now rewrite app_nil_r.
  - unfold Partials.add_partial. destruct error as [msg|].
    + now exists [add_partial_call lid t d (Some msg)].
    + pose proof (updated_call_is_an_update (hex lid) t d n1 n2
                    (Partials.cache p)) as U.
      destruct (PartialsCache.add _ _ _ _ _ _ _) as [c o]. destruct o; simpl.
      * now exists [add_partial_call lid t d None].
      * exists [add_partial_call lid t d None; call].
        split; [now rewrite <- app_assoc|].
        simpl. now rewrite (U call eq_refl).
      * now exists [add_partial_call lid t d None].
  - unfold Partials.get_recent_partials.
    destruct (PartialsCache.getitem _ _) as [c pi]. simpl.
    exists []. now rewrite app_nil_r.
  - exists []. now rewrite app_nil_r.
Qed.

Lemma partials_recorded_cons o ops :
  partials_recorded (o :: ops) = partials_recorded [o] ++ partials_recorded ops.
Proof.
  destruct o; reflexivity.
Qed.

Lemma run_ops_store ops :
  forall p,
    filter is_add_partial_call
      (Partials.store (run_ops estimated_size_of ops p))
    = filter is_add_partial_call (Partials.store p) ++ partials_recorded ops.
Proof.
  induction ops as [|o ops IH]; intros p; simpl run_ops.
  - simpl. now rewrite app_nil_r.
  - rewrite IH. destruct (step_store o p) as (more & -> & Hmore).
    rewrite filter_app, Hmore, <- app_assoc.
    now rewrite <- partials_recorded_cons.
Qed.

(** X7: over any sequence of calls on a new tracker, the store is asked to
    keep exactly the partials passed to [add_partial], each once, with its
    error if it has one, in the order of the calls; whatever else the
    store receives is an update of an estimate. *)
Theorem store_is_asked_to_keep_every_partial :
  forall (pplns_interval : option Z) (time_target : Z) (network : string)
         (ops : list op),
    filter is_add_partial_call
      (Partials.store
         (run_ops estimated_size_of ops
            (Partials.init pplns_interval time_target network)))
    = partials_recorded ops.
Proof.
  intros pplns_interval time_target network ops.
  now rewrite run_ops_store.
Qed.

End StoreRecords.

(** ** Loading from the store *)

Section Load.

Import PartialsCache.

Variable estimated_size_of : Z -> Z -> string -> option Z.

Lemma current_deposit k lid own' all' c :
  current k (mk (Dict.set lid own' (items c)) all' (keep_interval c)
               (time_target c) (selected_network c))
  = if String.eqb k lid then own' else current k c.
Proof.
  unfold current. simpl. destruct (String.eqb_spec k lid) as [->|Hne].
  - now rewrite get_set_same.
  - rewrite get_set_other; [reflexivity | now apply String.eqb_neq].
Qed.

Lemma rows_of_cons k lid t d rows :
  rows_of k ((lid, t, d) :: rows)
  = (if String.eqb k lid then [(t, d)] else []) ++ rows_of k rows.
Proof.
  unfold rows_of. simpl. destruct (String.eqb k lid); reflexivity.
Qed.

Lemma points_of_current k c :
  match Dict.get k (items c) with
  | Some old => PartialsInterval.points old
  | None => 0
  end = PartialsInterval.points (current k c).
Proof.
  unfold current. destruct (Dict.get k (items c)); reflexivity.
Qed.

(** The loop of [load_from_store] appends and removes nothing. *)
Lemma replay_appends now rows :
  forall c k,
    let c' := Partials.replay now rows c in
    PartialsInterval.partials (all c')
    = PartialsInterval.partials (all c) ++ map row_partial rows
    /\ PartialsInterval.partials (current k c')
       = PartialsInterval.partials (current k c) ++ rows_of k rows
    /\ PartialsInterval.additions (current k c')
       = PartialsInterval.additions (current k c)
         + Z.of_nat (List.length (rows_of k rows))
    /\ PartialsInterval.points (all c')
       = PartialsInterval.points (all c) + sum_difficulty (map row_partial rows)
    /\ PartialsInterval.points (all c') - sum_points (items c')
       = PartialsInterval.points (all c) - sum_points (items c).
Proof.
  induction rows as [|[[lid t] d] rows IH]; intros c k c'.
  - unfold c', rows_of. simpl. rewrite !app_nil_r. repeat split; lia.
  - unfold c'. rewrite replay_cons.
    set (c1 := mk _ _ _ _ _).
    destruct (IH c1 k) as (H1 & H2 & H3 & H4 & H5).
    assert (Ecur : current k c1
                   = if String.eqb k lid
                     then fst (PartialsInterval.add now t d false (current lid c))
                     else current k c)
      by (unfold c1; apply current_deposit).
    assert (Eall : all c1 = fst (PartialsInterval.add now t d false (all c)))
      by reflexivity.
    assert (Esum : sum_points (items c1) = sum_points (items c) + d).
    { unfold c1, sum_points. cbn [items].
      rewrite sum_set, points_of_current, add_points. ring. }
    change (map row_partial ((lid, t, d) :: rows))
      with ((t, d) :: map row_partial rows).
    split; [|split; [|split; [|split]]].
    + rewrite H1, Eall, add_partials. now rewrite <- app_assoc.
    + rewrite H2, Ecur, rows_of_cons.
      destruct (String.eqb_spec k lid) as [->|Hne]; [|reflexivity].
      rewrite add_partials. now rewrite <- app_assoc.
    + rewrite H3, Ecur, rows_of_cons.
      destruct (String.eqb_spec k lid) as [->|Hne]; [|simpl; lia].
      rewrite (proj1 (add_additions _ _ _ _ _)). simpl List.length. lia.
    + rewrite H4, Eall, add_points. simpl. ring.
    + rewrite H5, Eall, Esum, add_points. ring.
Qed.

(** X8: [load_from_store] removes nothing, whatever the clock and the
    timestamps: the interval of all launchers receives the rows in their
    order, every launcher receives its own rows in their order and its
    counter goes up by their number, and the difference between the points
    of all launchers and the sum of the points of the launchers is what it
    was before, so that on a new tracker the two are equal after the
    load. *)
Theorem load_from_store_appends_every_row :
  forall (now : Z) (rows : list (string * Z * Z)) (p : Partials.t)
         (launcher_id : string),
    let c := Partials.cache p in
    let c' := Partials.cache (Partials.load_from_store now rows p) in
    PartialsInterval.partials (all c')
    = PartialsInterval.partials (all c) ++ map row_partial rows
    /\ PartialsInterval.partials (current launcher_id c')
       = PartialsInterval.partials (current launcher_id c)
         ++ rows_of launcher_id rows
    /\ PartialsInterval.additions (current launcher_id c')
       = PartialsInterval.additions (current launcher_id c)
         + Z.of_nat (List.length (rows_of launcher_id rows))
    /\ PartialsInterval.points (all c') - sum_points (items c')
       = PartialsInterval.points (all c) - sum_points (items c)
    /\ (items c = [] /\ PartialsInterval.points (all c) = 0 ->
        PartialsInterval.points (all c') = sum_points (items c')
        /\ PartialsInterval.points (all c')
           = sum_difficulty (map row_partial rows)).
Proof.
  intros now rows p launcher_id c c'.
  destruct (replay_appends now rows c launcher_id) as (H1 & H2 & H3 & H4 & H5).
  unfold c'. simpl.
  split; [exact H1|]. split; [exact H2|]. split; [exact H3|].
  split; [exact H5|].
  intros [E0 E1]. rewrite E0, E1 in H5. rewrite E1 in H4.
  unfold sum_points at 2 in H5. simpl in H5. unfold c in *. split; lia.
Qed.

(** X9: on a tracker loaded from the store, the number that the interval
    of a launcher returns for a new partial is the number of rows loaded
    for the launcher plus the number of its partials added since, and the
    estimate step is skipped exactly when that number is not a multiple
    of 5. *)
Theorem number_counts_rows_loaded_and_partials_added :
  forall (now keep time_target : Z) (network : string)
         (rows : list (string * Z * Z)) (calls : list call) (o : call),
    let c := run estimated_size_of calls
               (Partials.replay now rows (init keep time_target network)) in
    let n := Z.of_nat (List.length (rows_of (c_launcher_id o) rows))
             + calls_for (c_launcher_id o) calls in
    snd (PartialsInterval.add (c_now_own o) (c_timestamp o) (c_difficulty o)
           true (current (c_launcher_id o) c)) = n
    /\ (snd (do_call estimated_size_of o c) = NotDue <-> n mod 5 <> 0).
Proof.
  intros now keep time_target network rows calls o c n.
  assert (Hn : snd (PartialsInterval.add (c_now_own o) (c_timestamp o)
                      (c_difficulty o) true (current (c_launcher_id o) c)) = n).
  { rewrite (proj2 (add_additions _ _ _ _ _)). unfold c.
    rewrite additions_run.
    destruct (replay_appends now rows (init keep time_target network)
                (c_launcher_id o)) as (_ & _ & H3 & _).
    rewrite H3. unfold current. simpl. unfold n. lia. }
  split; [exact Hn|].
  unfold do_call. rewrite add_eq. simpl. rewrite Hn.
  destruct (Z.eqb_spec (n mod 5) 0) as [H0|H0].
  - split; [intros H; now apply estimate_outcome_due in H | intros H; lia].
  - split; [intros _; exact H0 | reflexivity].
Qed.

(** C5 (as amended): on any cache, the estimate step of [add] is skipped
    exactly when the number returned by the [add] of the launcher's
    interval is not a multiple of 5, and when it runs the call ends with
    the update to the store or with the exception of the step.  That
    number is the counter of the launcher's interval: on a cache filled by
    [load_from_store] and then by calls of [add], it is the number of rows
    loaded for the launcher plus the number of its earlier calls, counted
    from 0; with no rows loaded the step runs on the 1st, 6th, 11th ...
    call for the launcher. *)
Theorem C5_estimate_runs_when_number_is_multiple_of_5 :
  forall (c : t) (o : call),
    let own := PartialsInterval.add (c_now_own o) (c_timestamp o)
                 (c_difficulty o) true (current (c_launcher_id o) c) in
    let number := snd own in
    number = PartialsInterval.additions (current (c_launcher_id o) c)
    /\ (snd (do_call estimated_size_of o c) = NotDue <-> number mod 5 <> 0)
    /\ (number mod 5 = 0 ->
        snd (do_call estimated_size_of o c)
        = estimate_outcome estimated_size_of (c_launcher_id o) (c_timestamp o)
            (time_target c) (selected_network c) (fst own)
            (all (fst (do_call estimated_size_of o c))))
    /\ (forall (now keep time_target : Z) (network : string)
               (rows : list (string * Z * Z)) (calls : list call),
           c = run estimated_size_of calls
                 (Partials.replay now rows (init keep time_target network)) ->
           number = Z.of_nat (List.length (rows_of (c_launcher_id o) rows))
                    + calls_for (c_launcher_id o) calls).
Proof.
  intros c o own number.
  assert (Hn : number
               = PartialsInterval.additions (current (c_launcher_id o) c)).
  { unfold number, own. apply (proj2 (add_additions _ _ _ _ _)). }
  assert (E : snd (do_call estimated_size_of o c)
              = if number mod 5 =? 0
                then estimate_outcome estimated_size_of (c_launcher_id o)
                       (c_timestamp o) (time_target c) (selected_network c)
                       (fst own) (all (fst (do_call estimated_size_of o c)))
                else NotDue).
  { unfold number, own, do_call. now rewrite add_eq. }
  split; [exact Hn|]. split; [|split].
  - rewrite E. destruct (Z.eqb_spec (number mod 5) 0) as [H0|H0].
    + split; [intros H; now apply estimate_outcome_due in H | intros H; lia].
    + split; [intros _; exact H0 | reflexivity].
  - intros H0. rewrite E.
    destruct (Z.eqb_spec (number mod 5) 0) as [_|H1]; [reflexivity | lia].
  - intros now keep time_target network rows calls ->.
    rewrite Hn, additions_run.
    destruct (replay_appends now rows (init keep time_target network)
                (c_launcher_id o)) as (_ & _ & H3 & _).
    rewrite H3. unfold current. simpl. lia.
Qed.

End Load.

(** ** Reading a launcher that the cache does not know *)

Section UnknownLauncher.

Import Partials.

Lemma slice_from_nil {A : Type} (start : Z) : slice_from start (@nil A) = [].
Proof.
  unfold slice_from. now destruct (Z.to_nat _).
Qed.

(** An interval without points at the end of the dictionary is passed
    over by the payout loop. *)
Lemma collect_skips_last_without_points launcher_id_and_ph k pi items :
  PartialsInterval.points pi = 0 ->
  forall acc logged,
    collect launcher_id_and_ph (items ++ [(k, pi)]) acc logged
    = collect launcher_id_and_ph items acc logged.
Proof.
  intros H0. induction items as [|[k' pi'] items IH]; intros acc logged; simpl.
  - now rewrite H0.
  - destruct (PartialsInterval.points pi' =? 0); [apply IH|].
    destruct (Dict.get k' launcher_id_and_ph); [|apply IH].
    destruct (uint64 (PartialsInterval.points pi')); [apply IH | reflexivity].
Qed.

(** X10: [get_recent_partials] for a launcher that is not in the cache
    returns the empty list whatever the number asked for, leaves the
    interval of all launchers as it is, and the empty interval that it
    stores for the launcher changes nothing in the result of the payout
    pass. *)
Theorem read_of_unknown_launcher_is_empty_and_harmless :
  forall (launcher_id : list byte) (number_of_partials : Z) (p : t)
         (launcher_id_and_ph : Dict.t string),
    Dict.get (hex launcher_id) (PartialsCache.items (cache p)) = None ->
    let r := get_recent_partials launcher_id number_of_partials p in
    snd r = inl []
    /\ PartialsCache.all (cache (fst r)) = PartialsCache.all (cache p)
    /\ get_farmer_points_and_payout_instructions launcher_id_and_ph (fst r)
       = get_farmer_points_and_payout_instructions launcher_id_and_ph p.
Proof.
  intros launcher_id number_of_partials p launcher_id_and_ph G r.
  unfold r, get_recent_partials, PartialsCache.getitem. rewrite G. simpl.
  rewrite slice_from_nil. simpl. split; [reflexivity|]. split; [reflexivity|].
  unfold get_farmer_points_and_payout_instructions. simpl.
  rewrite set_absent by exact G.
  now rewrite collect_skips_last_without_points.
Qed.

End UnknownLauncher.

(** ** The points and the share that an update reports *)

Section UpdateReported.

Import PartialsCache.

Variable estimated_size_of : Z -> Z -> string -> option Z.

Lemma run_windowed_from_init keep time_target network calls o :
  nondecreasing (map c_timestamp (calls ++ [o])) ->
  nondecreasing (clock_reads (calls ++ [o])) ->
  windowed keep (c_now_all o - keep) (c_timestamp o)
    (run estimated_size_of (calls ++ [o]) (init keep time_target network)).
Proof.
  intros St Sn.
  destruct (lower_bound (map c_timestamp (calls ++ [o]))) as [latest Hl].
  destruct (lower_bound (clock_reads (calls ++ [o]))) as [m Hm].
  pose proof (run_windowed estimated_size_of keep (calls ++ [o]) (m - keep)
                latest (init keep time_target network)
                (init_windowed keep time_target network _ _)) as R.
  rewrite !fold_left_app in R. simpl in R. apply R; try assumption.
  - now rewrite Forall_map in Hl.
  - eapply Forall_impl; [|exact Hm]. simpl. intros; lia.
Qed.

Lemma evict_head_unexpired drop_time l p :
  match fst (PartialsInterval.evict drop_time l p) with
  | [] => True
  | x :: _ => drop_time <= fst x
  end.
Proof.
  revert p. induction l as [|[t d] l IH]; intros p; simpl; [exact I|].
  destruct (Z.ltb_spec t drop_time); [apply IH | simpl; lia].
Qed.

(** After [add] with removal, a chronological list holds nothing that is
    older than the cutoff. *)
Lemma add_leaves_unexpired now t d s :
  chronological
    (PartialsInterval.partials (fst (PartialsInterval.add now t d true s))) ->
  Forall (fun x => now - PartialsInterval.keep_interval s <= fst x)
    (PartialsInterval.partials (fst (PartialsInterval.add now t d true s))).
Proof.
  rewrite add_partials.
  pose proof (evict_head_unexpired (now - PartialsInterval.keep_interval s)
                (PartialsInterval.partials s ++ [(t, d)])
                (PartialsInterval.points s + d)) as Hh.
  destruct (fst (PartialsInterval.evict _ _ _)) as [|x l]; [constructor|].
  intros Hc. apply chronological_cons in Hc. destruct Hc as [_ Hc].
  constructor; [exact Hh|].
  eapply Forall_impl; [|exact Hc]. simpl. intros; lia.
Qed.

(** Difficulties that are not negative stay so in the dictionary. *)
Lemma run_nonnegative calls :
  forall c,
    Forall (fun o => 0 <= c_difficulty o) calls ->
    Forall (fun kv => Forall (fun x => 0 <= snd x)
                        (PartialsInterval.partials (snd kv))) (items c) ->
    Forall (fun kv => Forall (fun x => 0 <= snd x)
                        (PartialsInterval.partials (snd kv)))
      (items (run estimated_size_of calls c)).
Proof.
  induction calls as [|o calls IH]; intros c Hd Hc; [exact Hc|].
  apply Forall_cons_iff in Hd. destruct Hd as [Ho Hd].
  simpl. apply IH; [exact Hd|].
  unfold do_call. rewrite add_eq. simpl.
  apply (Forall_set
           (fun pi => Forall (fun x => 0 <= snd x) (PartialsInterval.partials pi)));
    [exact Hc|].
  destruct (add_suffix (c_now_own o) (c_timestamp o) (c_difficulty o) true
              (current (c_launcher_id o) c)) as [pre Hpre].
  assert (Hcur : Forall (fun x => 0 <= snd x)
                   (PartialsInterval.partials (current (c_launcher_id o) c)
                    ++ [(c_timestamp o, c_difficulty o)])).
  { apply Forall_app. split; [|now repeat constructor].
    unfold current.
    destruct (Dict.get (c_launcher_id o) (items c)) as [pi|] eqn:G;
      [|constructor].
    exact (Forall_get
             (fun pi => Forall (fun x => 0 <= snd x)
                          (PartialsInterval.partials pi))
             _ pi (items c) Hc G). }
  rewrite Hpre in Hcur. apply Forall_app in Hcur. tauto.
Qed.

(** What an update tells the store after the last call of a run in which
    timestamps and clock values do not decrease, when the partial is not
    stamped after the clock and the time target is not shorter than the
    interval kept. *)
Lemma last_update keep time_target network calls o lid es pts share :
  nondecreasing (map c_timestamp (calls ++ [o])) ->
  nondecreasing (clock_reads (calls ++ [o])) ->
  c_timestamp o <= c_now_own o ->
  keep <= time_target ->
  let c := run estimated_size_of calls (init keep time_target network) in
  let c' := fst (do_call estimated_size_of o c) in
  let own := current (c_launcher_id o) c' in
  snd (do_call estimated_size_of o c)
  = Updated (update_estimated_size_and_pplns_call lid es pts share) ->
  windowed keep (c_now_all o - keep) (c_timestamp o) c'
  /\ Dict.get (c_launcher_id o) (items c') = Some own
  /\ Forall (fun x => c_now_own o - keep <= fst x)
       (PartialsInterval.partials own)
  /\ lid = c_launcher_id o
  /\ pts = PartialsInterval.points own
  /\ share = (pts, PartialsInterval.points (all c'))
  /\ PartialsInterval.points (all c') <> 0.
Proof.
  intros St Sn Hnow Htt c c' own Hup.
  assert (W : windowed keep (c_now_all o - keep) (c_timestamp o) c').
  { pose proof (run_windowed_from_init keep time_target network calls o St Sn)
      as W.
    rewrite run_app in W. exact W. }
  destruct (run_config estimated_size_of calls (init keep time_target network))
    as (Ht & Hs & Hk).
  fold c in Ht, Hs, Hk. simpl in Ht, Hs, Hk.
  pose proof (current_in_order keep _ _ (c_launcher_id o) c' W) as Hown.
  fold own in Hown. destruct Hown as (Hcons & Hkeep & Hchr & _).
  set (own0 := fst (PartialsInterval.add (c_now_own o) (c_timestamp o)
                      (c_difficulty o) true (current (c_launcher_id o) c))).
  assert (Eown : own = own0).
  { unfold own, c', do_call. rewrite add_eq. unfold current at 1. simpl.
    now rewrite get_set_same. }
  assert (Hget : Dict.get (c_launcher_id o) (items c') = Some own).
  { rewrite Eown. unfold c', do_call. rewrite add_eq. simpl.
    apply get_set_same. }
  assert (Hfresh : Forall (fun x => c_now_own o - keep <= fst x)
                     (PartialsInterval.partials own)).
  { assert (Hk0 : PartialsInterval.keep_interval (current (c_launcher_id o) c)
                  = keep).
    { rewrite <- Hkeep, Eown. unfold own0. symmetry.
      apply add_keep_interval. }
    rewrite Eown in Hchr |- *. unfold own0 in Hchr |- *.
    pose proof (add_leaves_unexpired _ _ _ _ Hchr) as F.
    now rewrite Hk0 in F. }
  split; [exact W|]. split; [exact Hget|]. split; [exact Hfresh|].
  unfold do_call in Hup. rewrite add_eq in Hup. simpl in Hup.
  fold own0 in Hup. rewrite <- Eown in Hup.
  destruct (_ mod 5 =? 0); [|discriminate].
  unfold estimate_outcome, decimal_div in Hup. rewrite Ht, Hs, Hkeep in Hup.
  assert (Epts : (if keep =? time_target
                  then PartialsInterval.points own
                  else points_since (c_timestamp o - time_target)
                         (PartialsInterval.partials own))
                 = PartialsInterval.points own).
  { destruct (keep =? time_target); [reflexivity|].
    unfold points_since. rewrite filter_all; [symmetry; exact Hcons|].
    eapply Forall_impl; [|exact Hfresh]. simpl. intros; lia. }
  rewrite Epts in Hup.
  destruct (estimated_size_of _ _ _); [|discriminate].
  assert (Eall : all c'
                 = fst (PartialsInterval.add (c_now_all o) (c_timestamp o)
                          (c_difficulty o) true (all c))).
  { unfold c', do_call. now rewrite add_eq. }
  rewrite <- Eall in Hup.
  destruct (Z.eqb_spec (PartialsInterval.points (all c')) 0) as [E0|E0];
    [discriminate|].
  injection Hup as <- <- <- <-. repeat split. exact E0.
Qed.

End UpdateReported.

Section UpdateReportedTheorems.

Import PartialsCache.

Variable estimated_size_of : Z -> Z -> string -> option Z.

(** X11: when the time target is not shorter than the interval kept, the
    points of an update are the whole total of the launcher's interval,
    also on the branch that sums over the time target only; the update is
    for the launcher of the call and its share is those points over the
    points of all launchers.  (Timestamps and clock values of the run do
    not decrease and the partial is not stamped after the clock.) *)
Theorem update_reports_the_whole_total :
  forall (keep time_target : Z) (network : string) (calls : list call)
         (o : call) (lid : string) (es pts : Z) (share : Z * Z),
    nondecreasing (map c_timestamp (calls ++ [o])) ->
    nondecreasing (clock_reads (calls ++ [o])) ->
    c_timestamp o <= c_now_own o ->
    keep <= time_target ->
    let c := run estimated_size_of calls (init keep time_target network) in
    let c' := fst (do_call estimated_size_of o c) in
    snd (do_call estimated_size_of o c)
    = Updated (update_estimated_size_and_pplns_call lid es pts share) ->
    lid = c_launcher_id o
    /\ pts = PartialsInterval.points (current (c_launcher_id o) c')
    /\ share = (pts, PartialsInterval.points (all c')).
Proof.
  intros keep time_target network calls o lid es pts share St Sn Hnow Htt c c'
    Hup.
  destruct (last_update estimated_size_of keep time_target network calls o lid
              es pts share St Sn Hnow Htt Hup)
    as (_ & _ & _ & H1 & H2 & H3 & _).
  repeat split; assumption.
Qed.

Lemma Forall_filter_kept {A : Type} (P : A -> Prop) (f : A -> bool) l :
  Forall P l -> Forall P (filter f l).
Proof.
  intros H. apply Forall_forall. intros x Hx. apply filter_In in Hx.
  rewrite Forall_forall in H. now apply H.
Qed.

(** X12: with difficulties that are not negative, and both clock values
    of the call equal, the share of an update is a fraction between 0 and
    1: its numerator is not negative and not more than its denominator,
    which is positive.  (Same conditions on the run as for X11.) *)
Theorem share_is_between_zero_and_one :
  forall (keep time_target : Z) (network : string) (calls : list call)
         (o : call) (lid : string) (es pts : Z) (share : Z * Z),
    nondecreasing (map c_timestamp (calls ++ [o])) ->
    nondecreasing (clock_reads (calls ++ [o])) ->
    Forall (fun o' => 0 <= c_difficulty o') (calls ++ [o]) ->
    c_timestamp o <= c_now_own o ->
    c_now_own o = c_now_all o ->
    keep <= time_target ->
    let c := run estimated_size_of calls (init keep time_target network) in
    snd (do_call estimated_size_of o c)
    = Updated (update_estimated_size_and_pplns_call lid es pts share) ->
    0 <= fst share <= snd share /\ 0 < snd share.
Proof.
  intros keep time_target network calls o lid es pts share St Sn Hd Hnow Hclk
    Htt c Hup.
  destruct (last_update estimated_size_of keep time_target network calls o lid
              es pts share St Sn Hnow Htt Hup)
    as (W & Hget & Hfresh & _ & Hpts & Hshare & Hne).
  fold c in W, Hget, Hfresh, Hpts, Hshare, Hne.
  set (c' := fst (do_call estimated_size_of o c)) in *.
  set (own := current (c_launcher_id o) c') in *.
  assert (Hnn : Forall (fun kv => Forall (fun x => 0 <= snd x)
                                    (PartialsInterval.partials (snd kv)))
                  (items c')).
  { unfold c', c. change (fst (do_call estimated_size_of o ?x))
      with (run estimated_size_of [o] x).
    rewrite <- run_app. apply run_nonnegative; [exact Hd | constructor]. }
  pose proof (current_in_order keep _ _ (c_launcher_id o) c' W) as Hown.
  fold own in Hown. destruct Hown as (Hcons & _).
  destruct W as (_ & (Hc & _) & _ & Hold & Hsum).
  set (cutoff := c_now_all o - keep) in *.
  assert (Eall : PartialsInterval.points (all c')
                 = sum_points_since cutoff (items c')).
  { rewrite <- (Hsum cutoff) by lia. unfold points_since.
    rewrite filter_all by exact Hold. exact Hc. }
  assert (Eown : points_since cutoff (PartialsInterval.partials own)
                 = PartialsInterval.points own).
  { unfold points_since. rewrite filter_all; [symmetry; exact Hcons|].
    eapply Forall_impl; [|exact Hfresh]. unfold cutoff. simpl. intros; lia. }
  assert (Hle : PartialsInterval.points own
                <= PartialsInterval.points (all c')).
  { rewrite Eall, <- Eown. unfold sum_points_since.
    apply (sum_at_least
             (fun pi => points_since cutoff (PartialsInterval.partials pi))
             (c_launcher_id o) own (items c')); [|exact Hget].
    eapply Forall_impl; [|exact Hnn]. intros kv Hkv. simpl.
    apply sum_difficulty_nonneg. now apply Forall_filter_kept. }
  assert (H0 : 0 <= PartialsInterval.points own).
  { rewrite Hcons. apply sum_difficulty_nonneg.
    exact (Forall_get
             (fun pi => Forall (fun x => 0 <= snd x)
                          (PartialsInterval.partials pi))
             _ own (items c') Hnn Hget). }
  rewrite Hshare, Hpts. simpl. lia.
Qed.

End UpdateReportedTheorems.

(** ** Concrete runs of the further properties *)

(** X1 on a list out of order: the partial stamped 50 is expired and stays,
    behind the one stamped 200. *)
Lemma evict_keeps_expired_behind_unexpired :
  PartialsInterval.evict 100 ([(0, 1)] ++ (200, 2) :: [(50, 3)]) 6
  = ((200, 2) :: [(50, 3)], 6 - sum_difficulty [(0, 1)]).
Proof.
  apply (evict_stops_at_first_unexpired 100 [(0, 1)] (200, 2) [(50, 3)] 6).
  - constructor; [simpl; lia | constructor].
  - simpl. lia.
Defined.

(** X2 on an interval holding (0,10), at time 150. *)
Lemma add_at_150_keeps_new_partial :
  let s := PartialsInterval.mk [(0, 10)] 10 1 100 in
  let kept := PartialsInterval.evict (150 - 100) [(0, 10)] 10 in
  let s' := fst (PartialsInterval.add 150 150 1 true s) in
  PartialsInterval.partials s' = fst kept ++ [(150, 1)]
  /\ PartialsInterval.points s' = snd kept + 1.
Proof.
  apply (add_keeps_unexpired_partial (PartialsInterval.mk [(0, 10)] 10 1 100)
           150 150 1).
  simpl. lia.
Defined.

(** X10 on the tracker of three partials, for a launcher it has not seen. *)
Lemma read_of_launcher_0b :
  let r := Partials.get_recent_partials [x0b] 5 three_partials in
  snd r = inl []
  /\ PartialsCache.all (Partials.cache (fst r))
     = PartialsCache.all (Partials.cache three_partials)
  /\ Partials.get_farmer_points_and_payout_instructions instructions_a_b
       (fst r)
     = Partials.get_farmer_points_and_payout_instructions instructions_a_b
         three_partials.
Proof.
  apply (read_of_unknown_launcher_is_empty_and_harmless [x0b] 5 three_partials
           instructions_a_b).
  reflexivity.
Defined.

(** X11 with an interval of 100 seconds and a time target of 200: the
    first partial of ["b"] reports its 5 points over the 15 of all. *)
Lemma first_of_b_reports_5_of_15 :
  let c := PartialsCache.run exact_estimated_size [first_of_a] cache_100_200 in
  let c' := fst (PartialsCache.do_call exact_estimated_size first_of_b c) in
  "b"%string = PartialsCache.c_launcher_id first_of_b
  /\ 5 = PartialsInterval.points
           (PartialsCache.current (PartialsCache.c_launcher_id first_of_b) c')
  /\ (5, 15) = (5, PartialsInterval.points (PartialsCache.all c')).
Proof.
  apply (update_reports_the_whole_total exact_estimated_size 100 200
           "mainnet"%string [first_of_a] first_of_b "b"%string 22977941176470
           5 (5, 15)).
  - by_order.
  - by_order.
  - simpl. lia.
  - lia.
  - reflexivity.
Defined.

(** X12 on the same run. *)
Lemma share_of_b_is_a_fraction :
  0 <= fst (5, 15) <= snd (5, 15) /\ 0 < snd (5, 15).
Proof.
  apply (share_is_between_zero_and_one exact_estimated_size 100 200
           "mainnet"%string [first_of_a] first_of_b "b"%string 22977941176470
           5 (5, 15)).
  - by_order.
  - by_order.
  - repeat (constructor; [simpl; lia|]). constructor.
  - simpl. lia.
  - reflexivity.
  - lia.
  - reflexivity.
Defined.

(** X13 on the tracker of three partials. *)
Lemma two_newest_of_three :
  snd (Partials.get_recent_partials launcher_0a 2 three_partials)
  = inl (firstn (Z.to_nat 2) (rev [(1, 5); (2, 7); (3, 9)])).
Proof.
  apply (get_recent_partials_positive launcher_0a 2 three_partials).
  - lia.
  - unfold fits_uint64. repeat (constructor; [simpl; lia|]). constructor.
Defined.

(** X14 on two partials of difficulty 2^63: the points are 2^64. *)
Lemma payout_of_two_large_partials_raises :
  Partials.get_farmer_points_and_payout_instructions instructions_a_b
    two_large_partials
  = inr ValueError.
Proof.
  apply (payout_pass_raises_out_of_range instructions_a_b two_large_partials).
  apply Exists_cons_hd. unfold fits_uint64. simpl. lia.
Defined.

(** X15 on the scenario, with a partial added at time 150. *)
Lemma scenario_counts_all_added_since_50 :
  PartialsInterval.points
    (fst (PartialsInterval.add 150 150 1 true
            (PartialsInterval.run scenario (PartialsInterval.init 100))))
  = points_since (150 - 100)
      (map PartialsInterval.event_of scenario ++ [(150, 1)]).
Proof.
  apply (points_after_eviction_of_all_added 100 scenario 150 150 1).
  - by_order.
  - repeat (constructor; [simpl; lia|]). constructor.
Defined.
